(** * OKLCH palette generator: the palette engine and its contrast solver

    A shallow embedding of the colour utilities ([utils/color]: [oklch],
    [adjustLightnessForContrast], [STEP_NAMES], [generatePalette]) and of the
    part of [components/PaletteRow.jsx] that reads the generated steps.

    Numbers.  The development has two models of a JavaScript number.

    - [num]: an exact rational, or one of the three special values [NaN],
      [+Infinity], [-Infinity].  The special values follow IEEE 754
      (comparisons with [NaN] are false, [0/0 = NaN],
      [Infinity - Infinity = NaN], ...); finite arithmetic is exact, and the
      sign of zero is not modelled.  The result of an arithmetic operation is
      kept in lowest terms, so that two equal results are the same term.
      This model carries the theorems on the structure of the palette and of
      the search, on the flags, and on the order of the lightnesses.

    - [Binary64]: the same functions on primitive binary64 numbers, every
      operation rounded as the program rounds it.  This model carries the
      theorems on the values of the lightness: what the default formula
      computes, and how far the stored lightness is from the rendered one.

    The colour library [culori] is external: [wcagContrast] is a parameter of
    the development, and so is the number-to-string conversion used by
    template literals. *)

From Stdlib Require Import QArith Qabs Qround Qpower Lqa Lia String DecimalString
  DecimalNat DecimalFacts List Bool.
From Stdlib Require Floats Uint63.
From stdpp Require Import gmap.
Import ListNotations.

(* Decimal literals of the source stand for the nearest binary64 number. *)
Set Warnings "-inexact-float".

Local Open Scope Q_scope.

(** ** JavaScript numbers *)

Inductive num : Type :=
| NaN
| PInf
| NInf
| Fin (q : Q).

(** A finite result, in lowest terms. *)
Definition fin (q : Q) : num := Fin (Qred q).

Definition Qsgn (q : Q) : Z := Z.sgn (Qnum q).

(** [sgn_inf s] is the infinity of sign [s]; a zero sign gives [NaN]
    ([Infinity * 0]). *)
Definition sgn_inf (s : Z) : num :=
  match s with
  | Z0 => NaN
  | Zpos _ => PInf
  | Zneg _ => NInf
  end.

Definition nadd (a b : num) : num :=
  match a, b with
  | NaN, _ | _, NaN => NaN
  | PInf, NInf | NInf, PInf => NaN
  | PInf, _ | _, PInf => PInf
  | NInf, _ | _, NInf => NInf
  | Fin x, Fin y => fin (x + y)
  end.

Definition nsub (a b : num) : num :=
  match a, b with
  | NaN, _ | _, NaN => NaN
  | PInf, PInf | NInf, NInf => NaN
  | PInf, _ | _, NInf => PInf
  | NInf, _ | _, PInf => NInf
  | Fin x, Fin y => fin (x - y)
  end.

Definition nmul (a b : num) : num :=
  match a, b with
  | NaN, _ | _, NaN => NaN
  | PInf, PInf | NInf, NInf => PInf
  | PInf, NInf | NInf, PInf => NInf
  | PInf, Fin y | Fin y, PInf => sgn_inf (Qsgn y)
  | NInf, Fin y | Fin y, NInf => sgn_inf (- Qsgn y)
  | Fin x, Fin y => fin (x * y)
  end.

(** Division; a finite zero divisor is the positive zero. *)
Definition ndiv (a b : num) : num :=
  match a, b with
  | NaN, _ | _, NaN => NaN
  | (PInf | NInf), (PInf | NInf) => NaN
  | PInf, Fin y => if Qle_bool 0 y then PInf else NInf
  | NInf, Fin y => if Qle_bool 0 y then NInf else PInf
  | Fin _, (PInf | NInf) => Fin 0
  | Fin x, Fin y => if Qeq_bool y 0 then sgn_inf (Qsgn x) else fin (x / y)
  end.

(** [Math.abs] *)
Definition nabs (a : num) : num :=
  match a with
  | NaN => NaN
  | PInf | NInf => PInf
  | Fin x => fin (Qabs x)
  end.

Definition Qlt_bool (x y : Q) : bool := negb (Qle_bool y x).

(** The JavaScript [<] on numbers. *)
Definition nltb (a b : num) : bool :=
  match a, b with
  | NaN, _ | _, NaN => false
  | _, NInf => false
  | NInf, _ => true
  | PInf, _ => false
  | Fin _, PInf => true
  | Fin x, Fin y => Qlt_bool x y
  end.

(** Truthiness of a number: [0] and [NaN] are falsy. *)
Definition num_truthy (a : num) : bool :=
  match a with
  | NaN => false
  | PInf | NInf => true
  | Fin x => negb (Qeq_bool x 0)
  end.

(** A loop index or a step count as a number. *)
Definition of_nat (n : nat) : num := Fin (inject_Z (Z.of_nat n)).

(** [parseFloat(x.toFixed(3))]: [toFixed] rounds to the nearest multiple of
    [10^-3], ties away from zero; from [10^21] on it prints the number itself,
    and [NaN] and the infinities print and parse as themselves. *)
Definition Qround_half_away (x : Q) : Z :=
  if Qle_bool 0 x then Qfloor (x + (1 # 2)) else (- Qfloor (- x + (1 # 2)))%Z.

Definition roundTo3 (a : num) : num :=
  match a with
  | Fin x =>
      if Qle_bool (10 ^ 21) (Qabs x) then fin x
      else fin (inject_Z (Qround_half_away (x * 1000)) / 1000)
  | _ => a
  end.

(** ** JavaScript values and objects *)

Inductive jsval : Type :=
| VUndefined
| VNull
| VNum (x : num)
| VStr (s : string)
| VBool (b : bool).

(** What [contrastTargets[i]] evaluates to.  The map is filled by
    [handleContrastChange] with [isNaN(val) ? null : val]: an entry is a
    number or [null], and a missing entry reads as [undefined]. *)
Inductive target : Type :=
| TUndefined
| TNull
| TNum (x : num).

Definition lookupTarget (contrastTargets : gmap nat (option num)) (i : nat) : target :=
  match contrastTargets !! i with
  | None => TUndefined
  | Some None => TNull
  | Some (Some x) => TNum x
  end.

Definition target_val (t : target) : jsval :=
  match t with
  | TUndefined => VUndefined
  | TNull => VNull
  | TNum x => VNum x
  end.

(** [if (contrastTargets[i])]: the entry when it is truthy. *)
Definition truthyTarget (t : target) : option num :=
  match t with
  | TNum x => if num_truthy x then Some x else None
  | TUndefined | TNull => None
  end.

(** The colour object [{ mode: 'oklch', l, c, h }] given to culori. *)
Record Oklch : Type := { ok_l : num; ok_c : num; ok_h : num }.

(** The object literal pushed by [generatePalette]. *)
Module ColorStep.
Record t : Type := {
  id : string;
  stepName : string;
  l : num;
  c : num;
  h : num;
  css : string;
  contrastTarget : target;
  isContrastForced : bool
}.

(** Property read [step.k] *)
Definition prop (s : t) (k : string) : jsval :=
  if String.eqb k "id" then VStr (id s)
  else if String.eqb k "stepName" then VStr (stepName s)
  else if String.eqb k "l" then VNum (l s)
  else if String.eqb k "c" then VNum (c s)
  else if String.eqb k "h" then VNum (h s)
  else if String.eqb k "css" then VStr (css s)
  else if String.eqb k "contrastTarget" then target_val (contrastTarget s)
  else if String.eqb k "isContrastForced" then VBool (isContrastForced s)
  else VUndefined.
End ColorStep.

Definition STEP_NAMES : list string :=
  ["100"; "99"; "98"; "95"; "90"; "80"; "70"; "60"; "50"; "40"; "35"; "30";
   "25"; "20"; "15"; "10"; "5"; "0"]%string.

(** [`${i}`] for a loop index *)
Definition natToString (i : nat) : string := NilZero.string_of_uint (Nat.to_uint i).

(** [STEP_NAMES[i] || `${i}`] *)
Definition stepNameOf (i : nat) : string :=
  match nth_error STEP_NAMES i with
  | Some name => if String.eqb name "" then natToString i else name
  | None => natToString i
  end.

(** ** PaletteRow: what the component reads from a step *)

Inductive rendered (A : Type) : Type :=
| Rendered (a : A)
| TypeError.
Arguments Rendered {A} a.
Arguments TypeError {A}.

Section PaletteRow.

(** [x.toFixed(2)] as a string *)
Variable toFixed2 : num -> string.

(** [{step.hex}], also the text copied to the clipboard *)
Definition stepHexText (step : ColorStep.t) : jsval := ColorStep.prop step "hex".

(** [{step.contrast.toFixed(2)}:1]; only a number has [toFixed] *)
Definition stepContrastText (step : ColorStep.t) : rendered string :=
  match ColorStep.prop step "contrast" with
  | VNum x => Rendered (String.append (toFixed2 x) ":1")
  | VUndefined | VNull | VStr _ | VBool _ => TypeError
  end.

End PaletteRow.

(** ** Sample collaborators, to run the model on concrete inputs *)

(** A contrast profile against white that falls linearly from 21:1 at
    lightness 0 to 1:1 at lightness 1. *)
Definition linearContrast (color : Oklch) (referenceColor : string) : num :=
  nsub (Fin 21) (nmul (Fin 20) (ok_l color)).

(** Prints a finite number as numerator/denominator. *)
Definition fractionToString (x : num) : string :=
  match x with
  | NaN => "NaN"
  | PInf => "Infinity"
  | NInf => "-Infinity"
  | Fin q =>
      String.concat "" [NilZero.string_of_int (Z.to_int (Qnum q)); "/";
                        NilZero.string_of_uint (Pos.to_uint (Qden q))]
  end%string.

(** ** App: the state and its handlers *)

(** [Math.max] *)
Definition nmax (a b : num) : num :=
  match a, b with
  | NaN, _ | _, NaN => NaN
  | PInf, _ | _, PInf => PInf
  | NInf, x | x, NInf => x
  | Fin x, Fin y => if Qle_bool x y then b else a
  end.

(** [Math.floor] *)
Definition nfloor (a : num) : num :=
  match a with
  | Fin x => fin (inject_Z (Qfloor x))
  | _ => a
  end.

(** [isNaN] on a number *)
Definition isNaN (a : num) : bool :=
  match a with
  | NaN => true
  | _ => false
  end.

(** [handleStepsChange = (delta) => setSteps(Math.max(3, steps + delta))]:
    the new value of [steps]. *)
Definition handleStepsChange (steps delta : num) : num :=
  nmax (Fin 3) (nadd steps delta).

(** [handleContrastChange]: the new [contrastTargets],
    [{ ...prev, [index]: isNaN(val) ? null : val }], where [val] is
    [parseFloat(value)]. *)
Definition handleContrastChange (prev : gmap nat (option num)) (index : nat)
    (val : num) : gmap nat (option num) :=
  <[ index := if isNaN val then None else Some val ]> prev.

(** A colour family [{ id, l, h }] of the [palettes] state. *)
Module ColorFamily.
Record t : Type := { id : string; l : num; h : num }.
End ColorFamily.

(** [removePalette = (id) => setPalettes(palettes.filter(p => p.id !== id))] *)
Definition removePalette (palettes : list ColorFamily.t) (id : string)
    : list ColorFamily.t :=
  List.filter (fun p => negb (String.eqb (ColorFamily.id p) id)) palettes.

(** [updatePalette = (id, newProps) =>
     setPalettes(palettes.map(p => p.id === id ? newProps : p))] *)
Definition updatePalette (palettes : list ColorFamily.t) (id : string)
    (newProps : ColorFamily.t) : list ColorFamily.t :=
  List.map (fun p => if String.eqb (ColorFamily.id p) id then newProps else p)
           palettes.

(** [randomColor], on the three draws of [Math.random()] in the order the
    function makes them; the arithmetic is exact here, and nothing below
    depends on the values drawn. *)
Definition randomColor (r1 r2 r3 : num) : Oklch :=
  {| ok_l := nadd (Fin 0.6) (nmul r1 (Fin 0.2));
     ok_c := nadd (Fin 0.1) (nmul r2 (Fin 0.2));
     ok_h := nfloor (nmul r3 (Fin 360)) |}.

(** [addPalette]: [now] is [Date.now()]; the chroma drawn by [randomColor]
    is not kept. *)
Definition addPalette (palettes : list ColorFamily.t) (now : nat)
    (r1 r2 r3 : num) : list ColorFamily.t :=
  let color := randomColor r1 r2 r3 in
  let newId := String.append "color-" (natToString now) in
  palettes ++ [{| ColorFamily.id := newId;
                  ColorFamily.l := ok_l color;
                  ColorFamily.h := ok_h color |}].

(** What culori's [converter('oklch')] returns for a colour it can parse:
    the hue is [undefined] for an achromatic colour. *)
Record CuloriOklch : Type := { cu_l : num; cu_c : num; cu_h : option num }.

(** [hexToOklch]; [toOklch] is culori's converter, [None] when it returns
    [undefined].  The hue is [color.h || 0]. *)
Definition hexToOklch (toOklch : string -> option CuloriOklch) (hex : string)
    : option Oklch :=
  match toOklch hex with
  | None => None
  | Some color =>
      Some {| ok_l := cu_l color;
              ok_c := cu_c color;
              ok_h := match cu_h color with
                      | Some h => if num_truthy h then h else Fin 0
                      | None => Fin 0
                      end |}
  end.

(** [PaletteRow]'s [handleHexChange]: the arguments of the call
    [onUpdate(id, { ...color, l: oklch.l, h: oklch.h })], if it is made. *)
Definition handleHexChange (toOklch : string -> option CuloriOklch)
    (color : ColorFamily.t) (newHex : string) : option (string * ColorFamily.t) :=
  match hexToOklch toOklch newHex with
  | Some oklch =>
      Some (ColorFamily.id color,
            {| ColorFamily.id := ColorFamily.id color;
               ColorFamily.l := ok_l oklch;
               ColorFamily.h := ok_h oklch |})
  | None => None
  end.

(** [PaletteRow]'s [handleParamChange]: the arguments of the call
    [onUpdate(id, { ...color, [param]: parseFloat(value) })]; [val] is
    [parseFloat(value)].  The component passes ['h'] alone; a parameter
    other than [l], [h] and [id] would add a property and leave these three
    as they are, and [id] is not a parameter the model covers. *)
Definition handleParamChange (color : ColorFamily.t) (param : string)
    (val : num) : string * ColorFamily.t :=
  (ColorFamily.id color,
   {| ColorFamily.id := ColorFamily.id color;
      ColorFamily.l := if String.eqb param "l" then val else ColorFamily.l color;
      ColorFamily.h := if String.eqb param "h" then val else ColorFamily.h color |}).

(** The state after [PaletteRow] has reported a change to [App]: [onUpdate]
    is [updatePalette]. *)
Definition applyUpdate (palettes : list ColorFamily.t)
    (call : option (string * ColorFamily.t)) : list ColorFamily.t :=
  match call with
  | Some (id, newProps) => updatePalette palettes id newProps
  | None => palettes
  end.

Definition PRESET_COLORS : list string :=
  ["#78787C"; "#5B67E8"; "#747695"; "#9A6588";
   "#E20314"; "#CD4400"; "#937502"; "#268F4F";
   "#2B8697"; "#066CFF"; "#5B67E8"; "#8747F7";
   "#D8027B"; "#8747F7"; "#9E50C3"; "#797784"]%string.

(** [hexes.map((hex, index) => ...).filter(Boolean)] of [loadPresets], on the
    part [hexes] of the array that starts at [index]. *)
Fixpoint presetFamilies (toOklch : string -> option CuloriOklch)
    (index : nat) (hexes : list string) : list ColorFamily.t :=
  match hexes with
  | [] => []
  | hex :: rest =>
      match hexToOklch toOklch hex with
      | Some oklch =>
          {| ColorFamily.id := String.append "preset-" (natToString index);
             ColorFamily.l := ok_l oklch;
             ColorFamily.h := ok_h oklch |}
          :: presetFamilies toOklch (S index) rest
      | None => presetFamilies toOklch (S index) rest
      end
  end.

(** [loadPresets]: the new [palettes]. *)
Definition loadPresets (toOklch : string -> option CuloriOklch)
    : list ColorFamily.t :=
  presetFamilies toOklch 0 PRESET_COLORS.

(** [(1/2)^n] *)
Fixpoint halves (n : nat) : Q :=
  match n with
  | O => 1
  | S n' => halves n' * (1 # 2)
  end.

(** ** The engine on binary64 numbers

    The same functions once more, on the numbers the program runs on: a
    JavaScript number is a [float], Rocq's primitive binary64 number, every
    arithmetic operation rounds to nearest (ties to even), and a decimal
    literal of the source stands for the nearest binary64 number.  The
    theorems on the values of the lightness are stated on this model. *)

Module Binary64.
Import Floats.
Local Open Scope float_scope.

(** A loop index or a step count as a number; integers convert exactly below
    [2^53], and the conversion is the one of a 63-bit integer. *)
Definition of_nat (n : nat) : float :=
  PrimFloat.of_uint63 (Uint63.of_Z (Z.of_nat n)).

(** Truthiness of a number: [0], [-0] and [NaN] are falsy. *)
Definition num_truthy (x : float) : bool := negb (x =? 0) && negb (is_nan x).

(** The rational that a finite number stands for, [m * 2^e] with its sign;
    [0] for [NaN] and the infinities. *)
Definition value (x : float) : Q :=
  match Prim2SF x with
  | S754_finite s m e =>
      let q := if (0 <=? e)%Z then inject_Z (Zpos m * 2 ^ e)
               else Zpos m # 2 ^ Z.to_pos (- e) in
      if s then (- q)%Q else q
  | S754_zero _ | S754_infinity _ | S754_nan => 0%Q
  end.

(** [parseFloat] of the decimal string of [n / 1000], for a whole number
    [0 <= n < 2^53]: the binary64 number nearest to [n / 1000], which is what
    the division of the two integers returns. *)
Definition parseThousandths (n : Z) : float :=
  PrimFloat.of_uint63 (Uint63.of_Z n) / 1000.

(** [parseFloat(x.toFixed(3))].  [toFixed(3)] prints the whole number [n] of
    thousandths nearest to the exact value of [|x|], the larger one on a tie,
    with the sign of [x] in front when [x < 0]; [parseFloat] reads the string
    back.  From [2^43] on, binary64 numbers are more than 0.001 apart, so the
    string printed (the number itself from [10^21] on) reads back as [x].
    Both zeros print as [0.000], and [NaN] and the infinities print and parse
    as themselves. *)
Definition roundTo3 (x : float) : float :=
  match Prim2SF x with
  | S754_finite s m e =>
      let q := Qabs (value x) in
      if Qle_bool (inject_Z (2 ^ 43)) q then x
      else
        let n := Qfloor (q * 1000 + (1 # 2)) in
        if s then - parseThousandths n else parseThousandths n
  | S754_zero _ => 0
  | S754_infinity _ | S754_nan => x
  end.

(** What [contrastTargets[i]] evaluates to. *)
Inductive target : Type :=
| TUndefined
| TNull
| TNum (x : float).

Definition lookupTarget (contrastTargets : gmap nat (option float)) (i : nat)
    : target :=
  match contrastTargets !! i with
  | None => TUndefined
  | Some None => TNull
  | Some (Some x) => TNum x
  end.

(** [if (contrastTargets[i])]: the entry when it is truthy. *)
Definition truthyTarget (t : target) : option float :=
  match t with
  | TNum x => if num_truthy x then Some x else None
  | TUndefined | TNull => None
  end.

(** The colour object [{ mode: 'oklch', l, c, h }] given to culori. *)
Record Oklch : Type := { ok_l : float; ok_c : float; ok_h : float }.

(** The object literal pushed by [generatePalette]. *)
Module ColorStep.
Record t : Type := {
  id : string;
  stepName : string;
  l : float;
  c : float;
  h : float;
  css : string;
  contrastTarget : target;
  isContrastForced : bool
}.
End ColorStep.

(** Sample collaborators: a contrast that falls linearly from 21:1 at
    lightness 0 to 1:1 at lightness 1, and a printer that writes a finite
    number as its mantissa and its binary exponent. *)
Definition linearContrast (color : Oklch) (referenceColor : string) : float :=
  21 - 20 * ok_l color.

Definition dyadicToString (x : float) : string :=
  match Prim2SF x with
  | S754_nan => "NaN"
  | S754_infinity s => if s then "-Infinity" else "Infinity"
  | S754_zero _ => "0"
  | S754_finite s m e =>
      String.concat "" [if s then "-" else ""; NilZero.string_of_uint (Pos.to_uint m);
                        "p"; NilZero.string_of_int (Z.to_int e)]
  end%string.

Section Binary64Engine.

(** culori's [wcagContrast(color, referenceColor)] *)
Variable wcagContrast : Oklch -> string -> float.
(** Number to string, as a template literal does it *)
Variable numToString : float -> string.

(** [oklch = (l, c, h) => `oklch(${l} ${c} ${h})`] *)
Definition oklch (l c h : float) : string :=
  String.concat "" ["oklch("; numToString l; " "; numToString c; " ";
                    numToString h; ")"]%string.

(** The loop [for (let i = 0; i < 20; i++)] of [adjustLightnessForContrast]
    with [fuel] iterations left, on the state [min], [max], [bestL],
    [minDiff]; [null] is [None]. *)
Fixpoint searchLoop (c h targetContrast : float) (referenceColor : string)
    (fuel : nat) (min max : float) (bestL : option float) (minDiff : float)
    : option float :=
  match fuel with
  | O => bestL
  | S fuel' =>
      let mid := (min + max) / 2 in
      let color := {| ok_l := mid; ok_c := c; ok_h := h |} in
      let currentContrast := wcagContrast color referenceColor in
      let diff := abs (currentContrast - targetContrast) in
      let '(minDiff, bestL) :=
        if diff <? minDiff then (diff, Some mid) else (minDiff, bestL) in
      if abs (currentContrast - targetContrast) <? 0.05 then
        Some mid
      else if currentContrast <? targetContrast then
        searchLoop c h targetContrast referenceColor fuel' min mid bestL minDiff
      else
        searchLoop c h targetContrast referenceColor fuel' mid max bestL minDiff
  end.

(** [min = 0], [max = 1], [bestL = null], [minDiff = Infinity], 20 iterations,
    then [return bestL]. *)
Definition adjustLightnessForContrast (c h targetContrast : float)
    (referenceColor : string) : option float :=
  searchLoop c h targetContrast referenceColor 20 0 1 None infinity.

(** [const t = i / (steps - 1); currentL = 0.97 - (t * 0.9)] *)
Definition defaultLightness (i steps : nat) : float :=
  let t := of_nat i / (of_nat steps - 1) in
  0.97 - (t * 0.9).

(** The first half of the loop body of [generatePalette]: the values of
    [currentL] and [isContrastForced] it leaves. *)
Definition chooseLightness (c h : float) (steps : nat)
    (contrastTargets : gmap nat (option float)) (i : nat) : float * bool :=
  match truthyTarget (lookupTarget contrastTargets i) with
  | Some target =>
      match adjustLightnessForContrast c h target "#ffffff" with
      | Some adjustedL => (adjustedL, true)
      | None => (defaultLightness i steps, false)
      end
  | None => (defaultLightness i steps, false)
  end.

(** The second half of the loop body: the object pushed at index [i]. *)
Definition makeStep (id : string) (c h : float) (steps : nat)
    (contrastTargets : gmap nat (option float)) (i : nat) : ColorStep.t :=
  let '(currentL, isContrastForced) := chooseLightness c h steps contrastTargets i in
  {| ColorStep.id := String.concat "" [id; "-"; natToString i]%string;
     ColorStep.stepName := stepNameOf i;
     ColorStep.l := roundTo3 currentL;
     ColorStep.c := c;
     ColorStep.h := h;
     ColorStep.css := oklch currentL c h;
     ColorStep.contrastTarget := lookupTarget contrastTargets i;
     ColorStep.isContrastForced := isContrastForced |}.

(** [for (let i = 0; i < steps; i++) palette.push(...)]; [fuel] is
    [steps - i]. *)
Fixpoint paletteLoop (id : string) (c h : float) (steps : nat)
    (contrastTargets : gmap nat (option float)) (fuel i : nat)
    (palette : list ColorStep.t) : list ColorStep.t :=
  match fuel with
  | O => palette
  | S fuel' =>
      paletteLoop id c h steps contrastTargets fuel' (S i)
        (palette ++ [makeStep id c h steps contrastTargets i])
  end.

Definition generatePalette (id : string) (l c h : float) (steps : nat)
    (contrastTargets : gmap nat (option float)) : list ColorStep.t :=
  paletteLoop id c h steps contrastTargets steps 0 [].

End Binary64Engine.

(** *** Definitions for the proofs *)

(** [0 <= x && x <= 1]: a number, not [NaN], between 0 and 1. *)
Definition inUnit (x : float) : bool := (0 <=? x) && (x <=? 1).

(** Every midpoint that the search can probe within [fuel] iterations from
    the interval [min], [max], whichever way it turns, is between 0 and 1. *)
Fixpoint probesInUnit (fuel : nat) (min max : float) : bool :=
  match fuel with
  | O => true
  | S fuel' =>
      let mid := (min + max) / 2 in
      inUnit mid && probesInUnit fuel' min mid && probesInUnit fuel' mid max
  end.

(** The rational [m * 2^e] *)
Definition dyadic (m e : Z) : Q := (inject_Z m * 2 ^ e)%Q.

(** [p * 2^k] *)
Definition shl (p : positive) (k : nat) : positive := Nat.iter k xO p.

(** The binary64 number of a positive integer [p] below [2^53]: the mantissa
    is [p] shifted to 53 digits. *)
Definition canonical (p : positive) : spec_float :=
  let d := Zpos (digits2_pos p) in
  S754_finite false (shl p (Z.to_nat (53 - d))) (d - 53).

End Binary64.

Section Engine.

(** culori's [wcagContrast(color, referenceColor)] *)
Variable wcagContrast : Oklch -> string -> num.
(** Number to string, as a template literal does it *)
Variable numToString : num -> string.

(** [oklch = (l, c, h) => `oklch(${l} ${c} ${h})`] *)
Definition oklch (l c h : num) : string :=
  String.concat "" ["oklch("; numToString l; " "; numToString c; " ";
                    numToString h; ")"]%string.

(** *** adjustLightnessForContrast *)

(** [Math.abs(currentContrast - targetContrast)] at the probe [mid] *)
Definition contrastDiff (c h targetContrast : num) (referenceColor : string)
    (mid : num) : num :=
  nabs (nsub (wcagContrast {| ok_l := mid; ok_c := c; ok_h := h |} referenceColor)
             targetContrast).

(** The loop [for (let i = 0; i < 20; i++)] with [fuel] iterations left, on
    the state [min], [max], [bestL], [minDiff]; [null] is [None]. *)
Fixpoint searchLoop (c h targetContrast : num) (referenceColor : string)
    (fuel : nat) (min max : num) (bestL : option num) (minDiff : num)
    : option num :=
  match fuel with
  | O => bestL
  | S fuel' =>
      let mid := ndiv (nadd min max) (Fin 2) in
      let color := {| ok_l := mid; ok_c := c; ok_h := h |} in
      let currentContrast := wcagContrast color referenceColor in
      let diff := nabs (nsub currentContrast targetContrast) in
      let '(minDiff, bestL) :=
        if nltb diff minDiff then (diff, Some mid) else (minDiff, bestL) in
      if nltb (nabs (nsub currentContrast targetContrast)) (Fin 0.05) then
        Some mid
      else if nltb currentContrast targetContrast then
        searchLoop c h targetContrast referenceColor fuel' min mid bestL minDiff
      else
        searchLoop c h targetContrast referenceColor fuel' mid max bestL minDiff
  end.

(** [min = 0], [max = 1], [bestL = null], [minDiff = Infinity], 20 iterations,
    then [return bestL]. *)
Definition adjustLightnessForContrast (c h targetContrast : num)
    (referenceColor : string) : option num :=
  searchLoop c h targetContrast referenceColor 20 (Fin 0) (Fin 1) None PInf.

(** [Math.abs(currentContrast - targetContrast) < 0.05] at the probe [mid] *)
Definition withinTolerance (c h targetContrast : num) (referenceColor : string)
    (mid : num) : bool :=
  nltb (contrastDiff c h targetContrast referenceColor mid) (Fin 0.05).

(** The probes [mid] the search visits, in order: the same walk as
    [searchLoop], recording each [mid] and stopping where the loop returns. *)
Fixpoint probes (c h targetContrast : num) (referenceColor : string)
    (fuel : nat) (min max : num) : list num :=
  match fuel with
  | O => []
  | S fuel' =>
      let mid := ndiv (nadd min max) (Fin 2) in
      let color := {| ok_l := mid; ok_c := c; ok_h := h |} in
      let currentContrast := wcagContrast color referenceColor in
      mid ::
        (if withinTolerance c h targetContrast referenceColor mid then []
         else if nltb currentContrast targetContrast then
           probes c h targetContrast referenceColor fuel' min mid
         else
           probes c h targetContrast referenceColor fuel' mid max)
  end.

(** What [searchLoop] run for [fuel] iterations from [bestL], [minDiff]
    returns, in terms of the probes [ps] it made: the first probe within
    tolerance; or, when no probe is within tolerance, [bestL] itself if no
    probe improves on [minDiff], else a probe of least error. *)
Definition searchPost (c h targetContrast : num) (referenceColor : string)
    (fuel : nat) (ps : list num) (bestL : option num) (minDiff : num)
    (res : option num) : Prop :=
  let err := contrastDiff c h targetContrast referenceColor in
  let within := withinTolerance c h targetContrast referenceColor in
  (exists pre L, ps = pre ++ [L] /\ res = Some L /\ within L = true /\
                 Forall (fun p => within p = false) pre)
  \/ (length ps = fuel /\ Forall (fun p => within p = false) ps /\
      ((res = bestL /\ Forall (fun p => nltb (err p) minDiff = false) ps)
       \/ (exists L, res = Some L /\ In L ps /\ nltb (err L) minDiff = true /\
                     Forall (fun p => nltb (err p) (err L) = false) ps))).

(** A finite number between 0 and 1. *)
Definition unitLightness (p : num) : Prop :=
  exists q, p = Fin q /\ 0 <= q <= 1.

(** *** generatePalette *)

(** [const t = i / (steps - 1); currentL = 0.97 - (t * 0.9)], in exact
    arithmetic; [Binary64.defaultLightness] is the value with its rounding. *)
Definition defaultLightness (i steps : nat) : num :=
  let t := ndiv (of_nat i) (nsub (of_nat steps) (Fin 1)) in
  nsub (Fin 0.97) (nmul t (Fin 0.9)).

(** The first half of the loop body, [if (contrastTargets[i]) ... else ...]:
    the values of [currentL] and [isContrastForced] it leaves.  The solver is
    called with its default reference colour, white. *)
Definition chooseLightness (c h : num) (steps : nat)
    (contrastTargets : gmap nat (option num)) (i : nat) : num * bool :=
  match truthyTarget (lookupTarget contrastTargets i) with
  | Some target =>
      match adjustLightnessForContrast c h target "#ffffff" with
      | Some adjustedL => (adjustedL, true)
      | None => (defaultLightness i steps, false)
      end
  | None => (defaultLightness i steps, false)
  end.

(** The second half of the loop body: the object pushed at index [i]. *)
Definition makeStep (id : string) (c h : num) (steps : nat)
    (contrastTargets : gmap nat (option num)) (i : nat) : ColorStep.t :=
  let '(currentL, isContrastForced) := chooseLightness c h steps contrastTargets i in
  {| ColorStep.id := String.concat "" [id; "-"; natToString i]%string;
     ColorStep.stepName := stepNameOf i;
     ColorStep.l := roundTo3 currentL;
     ColorStep.c := c;
     ColorStep.h := h;
     ColorStep.css := oklch currentL c h;
     ColorStep.contrastTarget := lookupTarget contrastTargets i;
     ColorStep.isContrastForced := isContrastForced |}.

(** [for (let i = 0; i < steps; i++) palette.push(...)] for a step count that
    is a natural number; [fuel] is [steps - i]. *)
Fixpoint paletteLoop (id : string) (c h : num) (steps : nat)
    (contrastTargets : gmap nat (option num)) (fuel i : nat)
    (palette : list ColorStep.t) : list ColorStep.t :=
  match fuel with
  | O => palette
  | S fuel' =>
      paletteLoop id c h steps contrastTargets fuel' (S i)
        (palette ++ [makeStep id c h steps contrastTargets i])
  end.

(** The base lightness [l] is a parameter that the body never reads. *)
Definition generatePalette (id : string) (l c h : num) (steps : nat)
    (contrastTargets : gmap nat (option num)) : list ColorStep.t :=
  paletteLoop id c h steps contrastTargets steps 0 [].

(** The default curve as a rational expression: [0.97 - i / (steps - 1) * 0.9]. *)
Definition curve (i steps : nat) : Q :=
  0.97 - inject_Z (Z.of_nat i) / (inject_Z (Z.of_nat steps) - 1) * 0.9.

(** Rounding a non-negative rational to three decimals, ties upwards. *)
Definition round3 (x : Q) : Q :=
  inject_Z (Qfloor (x * 1000 + (1 # 2))) * (1 # 1000).

(** ** Facts about numbers *)

Lemma fin_eq (x y : Q) : x == y -> fin x = fin y.
Proof. intros H. unfold fin. f_equal. now apply Qred_complete. Qed.

Lemma Qlt_bool_iff (x y : Q) : Qlt_bool x y = true <-> x < y.
Proof.
  unfold Qlt_bool. rewrite negb_true_iff.
  split; intros H.
  - apply Qnot_le_lt. intros Hle. apply Qle_bool_iff in Hle. congruence.
  - destruct (Qle_bool y x) eqn:E; [|reflexivity].
    apply Qle_bool_iff in E. exfalso. exact (Qlt_not_le _ _ H E).
Qed.

Lemma Qle_bool_false (x y : Q) : Qle_bool x y = false <-> y < x.
Proof.
  rewrite <- Qlt_bool_iff. unfold Qlt_bool.
  destruct (Qle_bool x y); simpl; intuition congruence.
Qed.

Lemma Qeq_bool_false (x y : Q) : Qeq_bool x y = false <-> ~ x == y.
Proof.
  split.
  - intros H Heq. apply Qeq_bool_iff in Heq. congruence.
  - intros H. destruct (Qeq_bool x y) eqn:E; [|reflexivity].
    apply Qeq_bool_iff in E. contradiction.
Qed.

Lemma nltb_fin (x y : Q) : nltb (Fin x) (Fin y) = true <-> x < y.
Proof. apply Qlt_bool_iff. Qed.

Lemma nltb_irrefl (a : num) : nltb a a = false.
Proof.
  destruct a as [| | |x]; try reflexivity.
  destruct (nltb (Fin x) (Fin x)) eqn:E; [|reflexivity].
  apply nltb_fin in E. exfalso. exact (Qlt_irrefl _ E).
Qed.

Lemma nltb_trans (a b c : num) :
  nltb a b = true -> nltb b c = true -> nltb a c = true.
Proof.
  destruct a as [| | |x], b as [| | |y], c as [| | |z]; simpl;
    try discriminate; try reflexivity.
  fold (nltb (Fin x) (Fin y)) (nltb (Fin y) (Fin z)) (nltb (Fin x) (Fin z)).
  rewrite !nltb_fin. apply Qlt_trans.
Qed.

Lemma nltb_asym (a b : num) : nltb a b = true -> nltb b a = false.
Proof.
  intros H. destruct (nltb b a) eqn:E; [|reflexivity].
  pose proof (nltb_trans _ _ _ H E) as Haa.
  rewrite nltb_irrefl in Haa. discriminate.
Qed.

(** ** The default lightness curve *)

Lemma Qinv_as_mult (x y : Q) : x / y == x * / y.
Proof. reflexivity. Qed.

Lemma inject_nat_le (i j : nat) :
  (i <= j)%nat -> inject_Z (Z.of_nat i) <= inject_Z (Z.of_nat j).
Proof. intros H. rewrite <- Zle_Qle. lia. Qed.

Lemma inject_nat_lt (i j : nat) :
  (i < j)%nat -> inject_Z (Z.of_nat i) < inject_Z (Z.of_nat j).
Proof. intros H. rewrite <- Zlt_Qlt. lia. Qed.

Lemma inject_nat_pred (n : nat) :
  (1 <= n)%nat -> inject_Z (Z.of_nat (n - 1)) == inject_Z (Z.of_nat n) - 1.
Proof.
  intros H. replace (Z.of_nat (n - 1)) with (Z.of_nat n + - 1)%Z by lia.
  rewrite inject_Z_plus. reflexivity.
Qed.

(** The divisor [steps - 1] for at least two steps. *)
Lemma divisor_pos (steps : nat) :
  (2 <= steps)%nat -> 1 <= inject_Z (Z.of_nat steps) - 1.
Proof.
  intros H. pose proof (inject_nat_le 2 steps H) as H2.
  change (inject_Z (Z.of_nat 2)) with 2 in H2. lra.
Qed.

Lemma divisor_fin (steps : nat) :
  nsub (of_nat steps) (Fin 1) = fin (inject_Z (Z.of_nat steps) - 1).
Proof. reflexivity. Qed.

Lemma defaultLightness_fin (i steps : nat) :
  (2 <= steps)%nat ->
  exists q, defaultLightness i steps = Fin q /\ Qred q = q /\ q == curve i steps.
Proof.
  intros Hs. pose proof (divisor_pos steps Hs) as Hd.
  unfold defaultLightness. cbv zeta. rewrite divisor_fin.
  unfold of_nat, fin, ndiv.
  set (m := inject_Z (Z.of_nat steps) - 1) in *.
  assert (E : Qeq_bool (Qred m) 0 = false).
  { apply Qeq_bool_false. rewrite Qred_correct. lra. }
  rewrite E. unfold fin, nmul, nsub, fin.
  eexists. split; [reflexivity|]. split; [apply Qred_complete, Qred_correct|].
  unfold curve. fold m. rewrite !Qred_correct. reflexivity.
Qed.

Lemma curve_first (steps : nat) : (2 <= steps)%nat -> curve 0 steps == 0.97.
Proof.
  intros _. unfold curve. change (inject_Z (Z.of_nat 0)) with 0.
  rewrite Qinv_as_mult. lra.
Qed.

Lemma curve_last (steps : nat) :
  (2 <= steps)%nat -> curve (steps - 1) steps == 0.07.
Proof.
  intros Hs. pose proof (divisor_pos steps Hs) as Hd. unfold curve.
  rewrite inject_nat_pred by lia.
  set (m := inject_Z (Z.of_nat steps) - 1) in *.
  rewrite Qinv_as_mult, Qmult_inv_r by lra. lra.
Qed.

Lemma curve_step (i j steps : nat) :
  (2 <= steps)%nat ->
  curve i steps - curve j steps ==
  (inject_Z (Z.of_nat j) - inject_Z (Z.of_nat i)) * 0.9
  / (inject_Z (Z.of_nat steps) - 1).
Proof.
  intros Hs. pose proof (divisor_pos steps Hs) as Hd. unfold curve.
  set (m := inject_Z (Z.of_nat steps) - 1) in *.
  field. lra.
Qed.

Lemma curve_decreasing (i j steps : nat) :
  (2 <= steps)%nat -> (i < j)%nat -> curve j steps < curve i steps.
Proof.
  intros Hs Hij. pose proof (divisor_pos steps Hs) as Hd.
  pose proof (inject_nat_lt i j Hij) as Hlt.
  pose proof (curve_step i j steps Hs) as E.
  set (m := inject_Z (Z.of_nat steps) - 1) in *.
  assert (Hpos : 0 < (inject_Z (Z.of_nat j) - inject_Z (Z.of_nat i)) * 0.9 / m).
  { rewrite Qinv_as_mult. apply Qmult_lt_0_compat; [lra|].
    apply Qinv_lt_0_compat. lra. }
  lra.
Qed.

Lemma curve_range (i steps : nat) :
  (2 <= steps)%nat -> (i < steps)%nat -> 0.07 <= curve i steps <= 0.97.
Proof.
  intros Hs Hi. split.
  - destruct (Nat.eq_dec i (steps - 1)%nat) as [->|Hne].
    + rewrite curve_last by exact Hs. lra.
    + pose proof (curve_decreasing i (steps - 1)%nat steps Hs ltac:(lia)) as H.
      rewrite curve_last in H by exact Hs. lra.
  - destruct (Nat.eq_dec i 0%nat) as [->|Hne].
    + rewrite curve_first by exact Hs. lra.
    + pose proof (curve_decreasing 0%nat i steps Hs ltac:(lia)) as H.
      rewrite curve_first in H by exact Hs. lra.
Qed.

(** Neighbouring default steps are a thousandth apart or more up to 901 steps. *)
Lemma curve_gap (i j steps : nat) :
  (2 <= steps <= 901)%nat -> (i < j)%nat ->
  curve j steps + (1 # 1000) <= curve i steps.
Proof.
  intros [Hs Hmax] Hij. pose proof (divisor_pos steps Hs) as Hd.
  pose proof (inject_nat_le (S i) j Hij) as Hle.
  pose proof (inject_nat_le steps 901 Hmax) as Hm.
  pose proof (curve_step i j steps Hs) as E.
  rewrite Nat2Z.inj_succ in Hle. unfold Z.succ in Hle. rewrite inject_Z_plus in Hle.
  change (inject_Z (Z.of_nat 901)) with 901 in Hm.
  change (inject_Z 1) with 1 in Hle.
  assert (Hm' : inject_Z (Z.of_nat steps) - 1 <= 900) by lra.
  set (m := inject_Z (Z.of_nat steps) - 1) in *.
  set (a := inject_Z (Z.of_nat i)) in *. set (b := inject_Z (Z.of_nat j)) in *.
  assert (Hq : (1 # 1000) <= (b - a) * 0.9 / m).
  { apply Qle_shift_div_l; [lra|]. lra. }
  lra.
Qed.

(** ** Rounding to three decimals *)

Lemma roundTo3_unit (x : Q) :
  0 <= x <= 1 ->
  exists y, roundTo3 (Fin x) = Fin y /\ Qred y = y /\ y == round3 x.
Proof.
  intros [H0 H1]. unfold roundTo3.
  assert (Hbig : Qle_bool (10 ^ 21) (Qabs x) = false).
  { apply Qle_bool_false. rewrite Qabs_pos by exact H0.
    apply Qle_lt_trans with 1; [exact H1 | reflexivity]. }
  rewrite Hbig. unfold Qround_half_away.
  assert (Hpos : Qle_bool 0 (x * 1000) = true) by (apply Qle_bool_iff; lra).
  rewrite Hpos. unfold fin. eexists. split; [reflexivity|].
  split; [apply Qred_complete, Qred_correct|].
  rewrite Qred_correct. unfold round3. reflexivity.
Qed.

Lemma round3_error (x : Q) : Qabs (round3 x - x) <= 0.0005.
Proof.
  unfold round3. set (y := x * 1000 + (1 # 2)).
  pose proof (Qfloor_le y) as Hlo. pose proof (Qlt_floor y) as Hhi.
  rewrite inject_Z_plus in Hhi. change (inject_Z 1) with 1 in Hhi.
  subst y. set (F := inject_Z (Qfloor (x * 1000 + (1 # 2)))) in *.
  apply Qabs_Qle_condition. split; lra.
Qed.

Lemma round3_mono (x y : Q) : x <= y -> round3 x <= round3 y.
Proof.
  intros H. unfold round3.
  assert (Hf : (Qfloor (x * 1000 + (1 # 2)) <= Qfloor (y * 1000 + (1 # 2)))%Z)
    by (apply Qfloor_resp_le; lra).
  rewrite Zle_Qle in Hf. lra.
Qed.

Lemma round3_strict (x y : Q) : x + (1 # 1000) <= y -> round3 x < round3 y.
Proof.
  intros H. unfold round3.
  pose proof (Qfloor_le (x * 1000 + (1 # 2))) as Hx.
  pose proof (Qlt_floor (y * 1000 + (1 # 2))) as Hy.
  rewrite inject_Z_plus in Hy. change (inject_Z 1) with 1 in Hy.
  set (F := inject_Z (Qfloor (x * 1000 + (1 # 2)))) in *.
  set (G := inject_Z (Qfloor (y * 1000 + (1 # 2)))) in *.
  lra.
Qed.

(** ** The binary search *)

Lemma searchLoop_S c h target ref fuel min max bestL minDiff :
  searchLoop c h target ref (S fuel) min max bestL minDiff =
  let mid := ndiv (nadd min max) (Fin 2) in
  let d := contrastDiff c h target ref mid in
  let best' := if nltb d minDiff then Some mid else bestL in
  let diff' := if nltb d minDiff then d else minDiff in
  if withinTolerance c h target ref mid then Some mid
  else if nltb (wcagContrast {| ok_l := mid; ok_c := c; ok_h := h |} ref) target
       then searchLoop c h target ref fuel min mid best' diff'
       else searchLoop c h target ref fuel mid max best' diff'.
Proof.
  cbn [searchLoop]. unfold withinTolerance, contrastDiff. cbv zeta.
  destruct (nltb _ minDiff); reflexivity.
Qed.

Lemma searchPost_cons c h target ref fuel mid ps bestL minDiff res :
  let d := contrastDiff c h target ref mid in
  withinTolerance c h target ref mid = false ->
  searchPost c h target ref fuel ps
    (if nltb d minDiff then Some mid else bestL)
    (if nltb d minDiff then d else minDiff) res ->
  searchPost c h target ref (S fuel) (mid :: ps) bestL minDiff res.
Proof.
  intros d Hw. unfold searchPost. cbv zeta.
  destruct (nltb d minDiff) eqn:Hd.
  - intros [(pre & L & Hps & Hres & HwL & Hpre)
           | (Hlen & Hnw & [(Hres & Hall) | (L & Hres & HIn & HL & Hall)])].
    + left. exists (mid :: pre), L. rewrite Hps. repeat split; auto.
    + right. split; [simpl; now rewrite Hlen|]. split; [now constructor|].
      right. exists mid. repeat split; auto.
      * now left.
      * constructor; [apply nltb_irrefl | exact Hall].
    + right. split; [simpl; now rewrite Hlen|]. split; [now constructor|].
      right. exists L. repeat split; auto.
      * now right.
      * eapply nltb_trans; eauto.
      * constructor; [now apply nltb_asym | exact Hall].
  - intros [(pre & L & Hps & Hres & HwL & Hpre)
           | (Hlen & Hnw & [(Hres & Hall) | (L & Hres & HIn & HL & Hall)])].
    + left. exists (mid :: pre), L. rewrite Hps. repeat split; auto.
    + right. split; [simpl; now rewrite Hlen|]. split; [now constructor|].
      left. split; auto.
    + right. split; [simpl; now rewrite Hlen|]. split; [now constructor|].
      right. exists L. repeat split; auto.
      * now right.
      * constructor; [|exact Hall].
        destruct (nltb d (contrastDiff c h target ref L)) eqn:E; [|exact E].
        rewrite (nltb_trans _ _ _ E HL) in Hd. discriminate.
Qed.

Lemma searchLoop_post c h target ref fuel :
  forall min max bestL minDiff,
  searchPost c h target ref fuel (probes c h target ref fuel min max)
    bestL minDiff (searchLoop c h target ref fuel min max bestL minDiff).
Proof.
  induction fuel as [|fuel IH]; intros min max bestL minDiff.
  - right. split; [reflexivity|]. split; [constructor|].
    left. split; [reflexivity | constructor].
  - rewrite searchLoop_S. cbn [probes]. cbv zeta.
    set (mid := ndiv (nadd min max) (Fin 2)).
    destruct (withinTolerance c h target ref mid) eqn:Hw.
    + left. exists [], mid. repeat split; auto.
    + destruct (nltb _ target); apply searchPost_cons; auto.
Qed.

Lemma probes_S c h target ref fuel min max :
  exists rest,
    probes c h target ref (S fuel) min max = ndiv (nadd min max) (Fin 2) :: rest.
Proof. cbn [probes]. cbv zeta. eexists. reflexivity. Qed.

Lemma midpoint_fin (a b : Q) :
  ndiv (nadd (Fin a) (Fin b)) (Fin 2) = fin (Qred (a + b) / 2).
Proof. reflexivity. Qed.

Lemma probes_range c h target ref fuel :
  forall a b, 0 <= a -> a <= b -> b <= 1 ->
  Forall unitLightness (probes c h target ref fuel (Fin a) (Fin b)).
Proof.
  induction fuel as [|fuel IH]; intros a b Ha Hab Hb; cbn [probes]; cbv zeta.
  - constructor.
  - rewrite midpoint_fin.
    assert (Hm : Qred (Qred (a + b) / 2) == (a + b) * (1 # 2)).
    { rewrite Qred_correct. now rewrite Qred_correct. }
    assert (Hlo : a <= Qred (Qred (a + b) / 2)) by (rewrite Hm; lra).
    assert (Hhi : Qred (Qred (a + b) / 2) <= b) by (rewrite Hm; lra).
    constructor.
    + eexists. split; [reflexivity|]. lra.
    + destruct (withinTolerance _ _ _ _ _); [constructor|].
      destruct (nltb _ target); apply IH; lra.
Qed.

Lemma adjustLightnessForContrast_post c h target ref :
  searchPost c h target ref 20
    (probes c h target ref 20 (Fin 0) (Fin 1)) None PInf
    (adjustLightnessForContrast c h target ref).
Proof. apply searchLoop_post. Qed.

Lemma adjustLightnessForContrast_probe c h target ref L :
  adjustLightnessForContrast c h target ref = Some L ->
  In L (probes c h target ref 20 (Fin 0) (Fin 1)).
Proof.
  intros H.
  destruct (adjustLightnessForContrast_post c h target ref)
    as [(pre & L' & Hps & Hres & _)
       | (_ & _ & [(Hres & _) | (L' & Hres & HIn & _)])].
  - rewrite Hps. apply in_or_app. right. left. congruence.
  - congruence.
  - congruence.
Qed.

Lemma adjustLightnessForContrast_unit c h target ref L :
  adjustLightnessForContrast c h target ref = Some L -> unitLightness L.
Proof.
  intros H. apply adjustLightnessForContrast_probe in H.
  pose proof (probes_range c h target ref 20 0 1) as Hr.
  specialize (Hr ltac:(lra) ltac:(lra) ltac:(lra)).
  rewrite List.Forall_forall in Hr. now apply Hr.
Qed.

(** ** The loop of generatePalette *)

Lemma paletteLoop_spec id c h steps targets fuel i palette :
  paletteLoop id c h steps targets fuel i palette =
  palette ++ List.map (makeStep id c h steps targets) (seq i fuel).
Proof.
  revert i palette.
  induction fuel as [|fuel IH]; intros i palette; simpl.
  - now rewrite app_nil_r.
  - rewrite IH, <- app_assoc. reflexivity.
Qed.

Lemma generatePalette_map id l c h steps targets :
  generatePalette id l c h steps targets =
  List.map (makeStep id c h steps targets) (seq 0 steps).
Proof. unfold generatePalette. now rewrite paletteLoop_spec. Qed.

Lemma generatePalette_nth id l c h steps targets i :
  (i < steps)%nat ->
  nth_error (generatePalette id l c h steps targets) i =
  Some (makeStep id c h steps targets i).
Proof.
  intros Hi. rewrite generatePalette_map.
  rewrite nth_error_map, nth_error_seq.
  destruct (Nat.ltb_spec i steps); [reflexivity | lia].
Qed.

Lemma generatePalette_nth_inv id l c h steps targets i s :
  nth_error (generatePalette id l c h steps targets) i = Some s ->
  (i < steps)%nat /\ s = makeStep id c h steps targets i.
Proof.
  intros H.
  assert (Hi : (i < steps)%nat).
  { assert (Hn : nth_error (generatePalette id l c h steps targets) i <> None)
      by congruence.
    apply nth_error_Some in Hn.
    rewrite generatePalette_map, length_map, length_seq in Hn. exact Hn. }
  split; [exact Hi|].
  rewrite generatePalette_nth in H by exact Hi. congruence.
Qed.

Lemma makeStep_c id c h steps targets i :
  ColorStep.c (makeStep id c h steps targets i) = c.
Proof. unfold makeStep. now destruct chooseLightness. Qed.

Lemma makeStep_h id c h steps targets i :
  ColorStep.h (makeStep id c h steps targets i) = h.
Proof. unfold makeStep. now destruct chooseLightness. Qed.

Lemma makeStep_id id c h steps targets i :
  ColorStep.id (makeStep id c h steps targets i) =
  String.concat "" [id; "-"; natToString i]%string.
Proof. unfold makeStep. now destruct chooseLightness. Qed.

Lemma makeStep_lightness id c h steps targets i :
  let cl := chooseLightness c h steps targets i in
  let s := makeStep id c h steps targets i in
  ColorStep.l s = roundTo3 (fst cl) /\
  ColorStep.css s = oklch (fst cl) c h /\
  ColorStep.isContrastForced s = snd cl /\
  ColorStep.contrastTarget s = lookupTarget targets i.
Proof. unfold makeStep. simpl. now destruct chooseLightness. Qed.

Lemma chooseLightness_default c h steps targets i :
  truthyTarget (lookupTarget targets i) = None ->
  chooseLightness c h steps targets i = (defaultLightness i steps, false).
Proof. intros H. unfold chooseLightness. now rewrite H. Qed.

Lemma chooseLightness_solved c h steps targets i t L :
  lookupTarget targets i = TNum t -> num_truthy t = true ->
  adjustLightnessForContrast c h t "#ffffff" = Some L ->
  chooseLightness c h steps targets i = (L, true).
Proof.
  intros Ht Htr HL. unfold chooseLightness, truthyTarget.
  now rewrite Ht, Htr, HL.
Qed.

Lemma chooseLightness_fallback c h steps targets i t :
  lookupTarget targets i = TNum t -> num_truthy t = true ->
  adjustLightnessForContrast c h t "#ffffff" = None ->
  chooseLightness c h steps targets i = (defaultLightness i steps, false).
Proof.
  intros Ht Htr HL. unfold chooseLightness, truthyTarget.
  now rewrite Ht, Htr, HL.
Qed.

Lemma chooseLightness_forced c h steps targets i :
  snd (chooseLightness c h steps targets i) = true <->
  exists t, lookupTarget targets i = TNum t /\ num_truthy t = true /\
            adjustLightnessForContrast c h t "#ffffff" <> None.
Proof.
  unfold chooseLightness, truthyTarget.
  destruct (lookupTarget targets i) as [| |t]; simpl.
  - split; [discriminate | intros (t & Ht & _); discriminate].
  - split; [discriminate | intros (t & Ht & _); discriminate].
  - destruct (num_truthy t) eqn:Htr.
    + destruct (adjustLightnessForContrast c h t "#ffffff") as [L|] eqn:HL; simpl.
      * split; [|reflexivity]. intros _. exists t. rewrite HL. now repeat split.
      * split; [discriminate|]. intros (t' & Ht & _ & Hn).
        injection Ht as <-. now rewrite HL in Hn.
    + split; [discriminate|]. intros (t' & Ht & Htr' & _).
      injection Ht as <-. congruence.
Qed.

Lemma chooseLightness_unit c h steps targets i :
  (2 <= steps)%nat -> (i < steps)%nat ->
  exists q, fst (chooseLightness c h steps targets i) = Fin q /\ 0 <= q <= 1.
Proof.
  intros Hs Hi.
  assert (Hdef : exists q, defaultLightness i steps = Fin q /\ 0 <= q <= 1).
  { destruct (defaultLightness_fin i steps Hs) as (q & Hq & _ & Hc).
    pose proof (curve_range i steps Hs Hi) as Hr.
    exists q. split; [exact Hq|]. rewrite Hc. lra. }
  unfold chooseLightness.
  destruct (truthyTarget (lookupTarget targets i)) as [t|]; [|exact Hdef].
  destruct (adjustLightnessForContrast c h t "#ffffff") as [L|] eqn:HL; [|exact Hdef].
  exact (adjustLightnessForContrast_unit _ _ _ _ _ HL).
Qed.

(** A target of [Infinity] is never approached: every error is [Infinity] or
    [NaN], so [bestL] stays [null]. *)
Lemma searchLoop_PInf c h ref fuel :
  forall min max, searchLoop c h PInf ref fuel min max None PInf = None.
Proof.
  induction fuel as [|fuel IH]; intros min max; [reflexivity|].
  cbn [searchLoop]. cbv zeta.
  set (cc := wcagContrast _ ref).
  assert (Hd : nabs (nsub cc PInf) = NaN \/ nabs (nsub cc PInf) = PInf)
    by (destruct cc; simpl; auto).
  destruct Hd as [-> | ->]; simpl; destruct (nltb cc PInf); apply IH.
Qed.

(** ** The claims *)

(** C1: the object pushed by [generatePalette] has the eight properties [id],
    [stepName], [l], [c], [h], [css], [contrastTarget] and [isContrastForced]
    and no others: on every step of every palette, [hex] and [contrast] read
    as [undefined], so [PaletteRow] renders no hex text and
    [step.contrast.toFixed(2)] raises a [TypeError]. *)
Theorem generatePalette_steps_lack_hex_and_contrast
    (toFixed2 : num -> string) id l c h steps targets :
  Forall (fun step =>
            ColorStep.prop step "hex" = VUndefined /\
            ColorStep.prop step "contrast" = VUndefined /\
            stepHexText step = VUndefined /\
            stepContrastText toFixed2 step = TypeError)
         (generatePalette id l c h steps targets).
Proof.
  apply List.Forall_forall. intros step _.
  unfold stepHexText, stepContrastText. now repeat split.
Qed.

(** C3: the palette has exactly [steps] entries, the entry at position [i]
    carries the id [`${id}-${i}`], and every entry has the input chroma and
    the input hue. *)
Theorem generatePalette_shape id l c h steps targets :
  let palette := generatePalette id l c h steps targets in
  length palette = steps /\
  List.map ColorStep.id palette =
    List.map (fun i => String.concat "" [id; "-"; natToString i]%string)
             (seq 0 steps) /\
  Forall (fun step => ColorStep.c step = c /\ ColorStep.h step = h) palette.
Proof.
  cbv zeta. rewrite generatePalette_map. repeat split.
  - now rewrite length_map, length_seq.
  - rewrite List.map_map. apply List.map_ext. intros i. apply makeStep_id.
  - apply List.Forall_forall. intros step Hin.
    apply in_map_iff in Hin. destruct Hin as (i & <- & _).
    split; [apply makeStep_c | apply makeStep_h].
Qed.

(** C8: the palette does not depend on the base lightness [l]: two calls
    that differ in [l] alone return the same sequence.  Nor does the scale
    pass through the base lightness: for the base lightness 0.6, three steps
    and no targets, no step has the lightness 0.6. *)
Theorem generatePalette_ignores_base_lightness id l1 l2 c h steps targets :
  generatePalette id l1 c h steps targets =
  generatePalette id l2 c h steps targets /\
  Forall (fun step => ColorStep.l step <> fin 0.6)
         (generatePalette id (fin 0.6) c h 3 ∅).
Proof.
  split.
  - unfold generatePalette. reflexivity.
  - rewrite generatePalette_map. cbn [seq List.map].
    repeat constructor; vm_compute; discriminate.
Qed.

(** C2, as amended: a step is contrast-forced exactly when its entry in
    [contrastTargets] is a truthy number (neither [0] nor [NaN]) and the
    solver, called with that number against white, returns a lightness; the
    step is then rendered from the solver's lightness.  When the solver
    returns [null] for a truthy entry, and when the entry is missing, [null],
    [0] or [NaN], the step takes the default curve and the flag stays
    unset. *)
Theorem generatePalette_forced_iff_truthy id l c h steps targets i step :
  nth_error (generatePalette id l c h steps targets) i = Some step ->
  (ColorStep.isContrastForced step = true <->
   exists t, lookupTarget targets i = TNum t /\ num_truthy t = true /\
             adjustLightnessForContrast c h t "#ffffff" <> None) /\
  (forall t L,
     lookupTarget targets i = TNum t -> num_truthy t = true ->
     adjustLightnessForContrast c h t "#ffffff" = Some L ->
     ColorStep.css step = oklch L c h /\ ColorStep.l step = roundTo3 L) /\
  (forall t,
     lookupTarget targets i = TNum t -> num_truthy t = true ->
     adjustLightnessForContrast c h t "#ffffff" = None ->
     ColorStep.css step = oklch (defaultLightness i steps) c h) /\
  (truthyTarget (lookupTarget targets i) = None ->
   ColorStep.isContrastForced step = false /\
   ColorStep.css step = oklch (defaultLightness i steps) c h).
Proof.
  intros H. apply generatePalette_nth_inv in H. destruct H as [_ ->].
  destruct (makeStep_lightness id c h steps targets i) as (Hl & Hcss & Hf & _).
  rewrite Hl, Hcss, Hf. repeat split.
  - apply chooseLightness_forced.
  - apply chooseLightness_forced.
  - now rewrite (chooseLightness_solved c h steps targets i t L).
  - now rewrite (chooseLightness_solved c h steps targets i t L).
  - intros t Ht Htr HL.
    now rewrite (chooseLightness_fallback c h steps targets i t).
  - now rewrite chooseLightness_default.
  - now rewrite chooseLightness_default.
Qed.


(** C6, as amended: for a finite target contrast, and a contrast function
    that is finite on every colour of lightness between 0 and 1 with the
    given chroma and hue, the solver returns a lightness (never [null]),
    finite and between 0 and 1, however far the target is from what can be
    reached. *)
Theorem adjustLightnessForContrast_finite c h (t : Q) referenceColor :
  (forall q, 0 <= q <= 1 ->
     exists v, wcagContrast {| ok_l := Fin q; ok_c := c; ok_h := h |} referenceColor
               = Fin v) ->
  exists L, adjustLightnessForContrast c h (Fin t) referenceColor = Some (Fin L) /\
            0 <= L <= 1.
Proof.
  intros Hfin.
  destruct (adjustLightnessForContrast c h (Fin t) referenceColor) as [L|] eqn:HL.
  - destruct (adjustLightnessForContrast_unit _ _ _ _ _ HL) as (q & -> & Hq).
    exists q. split; [reflexivity | exact Hq].
  - exfalso.
    pose proof (adjustLightnessForContrast_post c h (Fin t) referenceColor) as H.
    rewrite HL in H.
    destruct H as [(pre & L' & _ & Hres & _)
                  | (Hlen & _ & [(_ & Hall) | (L' & Hres & _)])];
      [discriminate Hres | | discriminate Hres].
    destruct (probes_S c h (Fin t) referenceColor 19 (Fin 0) (Fin 1)) as (rest & E).
    rewrite E, midpoint_fin in Hall.
    apply Forall_inv in Hall. unfold contrastDiff in Hall.
    destruct (Hfin (Qred (Qred (0 + 1) / 2))) as (v & Hv); [split; discriminate|].
    unfold fin in Hall. rewrite Hv in Hall. discriminate.
Qed.

(** C7, as amended: over indices without a truthy contrast target, for at
    least two steps, the full-precision lightness the steps are rendered from
    is strictly decreasing; the stored [l], rounded to three decimals, never
    increases, and is strictly decreasing as long as there are at most 901
    steps. *)
Theorem generatePalette_default_decreasing id l c h steps targets i j :
  (2 <= steps)%nat -> (i < j < steps)%nat ->
  truthyTarget (lookupTarget targets i) = None ->
  truthyTarget (lookupTarget targets j) = None ->
  exists si sj qi qj li lj,
    nth_error (generatePalette id l c h steps targets) i = Some si /\
    nth_error (generatePalette id l c h steps targets) j = Some sj /\
    ColorStep.css si = oklch (Fin qi) c h /\
    ColorStep.css sj = oklch (Fin qj) c h /\
    qj < qi /\
    ColorStep.l si = Fin li /\ ColorStep.l sj = Fin lj /\
    lj <= li /\
    ((steps <= 901)%nat -> lj < li).
Proof.
  intros Hs [Hij Hj] Hni Hnj.
  assert (Hi : (i < steps)%nat) by lia.
  destruct (defaultLightness_fin i steps Hs) as (qi & Hqi & _ & Hci).
  destruct (defaultLightness_fin j steps Hs) as (qj & Hqj & _ & Hcj).
  pose proof (curve_range i steps Hs Hi) as Hri.
  pose proof (curve_range j steps Hs Hj) as Hrj.
  pose proof (curve_decreasing i j steps Hs Hij) as Hdec.
  destruct (roundTo3_unit qi) as (li & Hli & _ & Eli); [rewrite Hci; lra|].
  destruct (roundTo3_unit qj) as (lj & Hlj & _ & Elj); [rewrite Hcj; lra|].
  destruct (makeStep_lightness id c h steps targets i) as (Hl1 & Hcss1 & _).
  destruct (makeStep_lightness id c h steps targets j) as (Hl2 & Hcss2 & _).
  rewrite chooseLightness_default in Hl1, Hcss1 by exact Hni.
  rewrite chooseLightness_default in Hl2, Hcss2 by exact Hnj.
  simpl fst in *. rewrite Hqi in Hl1, Hcss1. rewrite Hqj in Hl2, Hcss2.
  exists (makeStep id c h steps targets i), (makeStep id c h steps targets j),
         qi, qj, li, lj.
  repeat split.
  - now apply generatePalette_nth.
  - now apply generatePalette_nth.
  - exact Hcss1.
  - exact Hcss2.
  - rewrite Hci, Hcj. exact Hdec.
  - now rewrite Hl1.
  - now rewrite Hl2.
  - rewrite Eli, Elj. apply round3_mono. rewrite Hci, Hcj. lra.
  - intros Hmax. rewrite Eli, Elj. apply round3_strict. rewrite Hci, Hcj.
    apply curve_gap; [lia | exact Hij].
Qed.

(** C9: for at least two steps the divisor [steps - 1] is a non-zero number
    and the default lightness is finite at every index.  For one step
    nothing guards the division: at index 0 without a truthy target the
    divisor is [0], [0 / 0] is [NaN], and the palette is returned all the
    same, its single step carrying the lightness [NaN]. *)
Theorem generatePalette_divisor id l c h steps targets i :
  ((2 <= steps)%nat ->
   exists d q,
     nsub (of_nat steps) (Fin 1) = Fin d /\ ~ d == 0 /\
     defaultLightness i steps = Fin q) /\
  (truthyTarget (lookupTarget targets 0) = None ->
   nsub (of_nat 1) (Fin 1) = Fin 0 /\
   defaultLightness 0 1 = NaN /\
   exists step,
     generatePalette id l c h 1 targets = [step] /\
     ColorStep.l step = NaN /\
     ColorStep.css step = oklch NaN c h /\
     ColorStep.isContrastForced step = false).
Proof.
  split.
  - intros Hs.
    destruct (defaultLightness_fin i steps Hs) as (q & Hq & _).
    pose proof (divisor_pos steps Hs) as Hd.
    exists (Qred (inject_Z (Z.of_nat steps) - 1)), q.
    split; [apply divisor_fin|]. split; [|exact Hq].
    rewrite Qred_correct. lra.
  - intros Hnone.
    split; [reflexivity|]. split; [reflexivity|].
    exists (makeStep id c h 1 targets 0). split; [reflexivity|].
    destruct (makeStep_lightness id c h 1 targets 0) as (Hl & Hcss & Hf & _).
    rewrite chooseLightness_default in Hl, Hcss, Hf by exact Hnone.
    split; [exact Hl|]. split; [exact Hcss | exact Hf].
Qed.

(** ** More on the binary search *)

Lemma halves_pos (n : nat) : 0 < halves n.
Proof. induction n as [|n IH]; cbn [halves]; lra. Qed.

Lemma halves_le_1 (n : nat) : halves n <= 1.
Proof. pose proof (halves_pos n). induction n as [|n IH]; cbn [halves]; [lra|].
  pose proof (halves_pos n). specialize (IH ltac:(assumption)). lra. Qed.

Lemma midpoint_value (a b : Q) :
  exists m, ndiv (nadd (Fin a) (Fin b)) (Fin 2) = Fin m /\ m == (a + b) * (1 # 2).
Proof.
  rewrite midpoint_fin. eexists. split; [reflexivity|].
  rewrite Qred_correct. now rewrite Qred_correct.
Qed.

(** The probes keep away from the ends of the interval they search: after
    [fuel] halvings of an interval of width [w] every probe is at least
    [w / 2^fuel] inside it. *)
Lemma probes_inside c h target ref fuel :
  forall a b, 0 <= a -> a <= b -> b <= 1 ->
  Forall (fun p => exists q, p = Fin q /\
                   a + (b - a) * halves fuel <= q <= b - (b - a) * halves fuel)
         (probes c h target ref fuel (Fin a) (Fin b)).
Proof.
  induction fuel as [|fuel IH]; intros a b Ha Hab Hb; cbn [probes]; cbv zeta.
  - constructor.
  - destruct (midpoint_value a b) as (m & -> & Hm).
    pose proof (halves_pos fuel) as Hp. pose proof (halves_le_1 fuel) as H1.
    cbn [halves].
    assert (EW : (b - a) * (halves fuel * (1 # 2)) == (b - a) * halves fuel * (1 # 2))
      by ring.
    assert (Wpos : 0 <= (b - a) * halves fuel)
      by (apply Qmult_le_0_compat; lra).
    assert (Wle : (b - a) * halves fuel <= b - a).
    { rewrite <- (Qmult_1_r (b - a)) at 2.
      rewrite !(Qmult_comm (b - a)). apply Qmult_le_compat_r; lra. }
    constructor.
    + exists m. split; [reflexivity|]. rewrite EW, Hm. lra.
    + destruct (withinTolerance _ _ _ _ _); [constructor|].
      destruct (nltb _ target).
      * specialize (IH a m Ha ltac:(lra) ltac:(lra)).
        eapply List.Forall_impl; [|exact IH]. cbv beta.
        intros p (q & -> & Hq). exists q. split; [reflexivity|].
        assert (E : (m - a) * halves fuel == (b - a) * halves fuel * (1 # 2))
          by (rewrite Hm; ring).
        rewrite E in Hq. rewrite EW. lra.
      * specialize (IH m b ltac:(lra) ltac:(lra) Hb).
        eapply List.Forall_impl; [|exact IH]. cbv beta.
        intros p (q & -> & Hq). exists q. split; [reflexivity|].
        assert (E : (b - m) * halves fuel == (b - a) * halves fuel * (1 # 2))
          by (rewrite Hm; ring).
        rewrite E in Hq. rewrite EW. lra.
Qed.

(** X1: the lightness the solver returns is never 0 or 1: it is a finite
    number between [2^-20] and [1 - 2^-20]. *)
Theorem adjustLightnessForContrast_strictly_inside c h targetContrast referenceColor :
  match adjustLightnessForContrast c h targetContrast referenceColor with
  | Some L => exists q, L = Fin q /\ 1 # 1048576 <= q <= 1 - (1 # 1048576)
  | None => True
  end.
Proof.
  destruct (adjustLightnessForContrast c h targetContrast referenceColor)
    as [L|] eqn:HL; [|exact I].
  apply adjustLightnessForContrast_probe in HL.
  pose proof (probes_inside c h targetContrast referenceColor 20 0 1
                ltac:(lra) ltac:(lra) ltac:(lra)) as Hr.
  rewrite List.Forall_forall in Hr. destruct (Hr L HL) as (q & -> & Hq).
  exists q. split; [reflexivity|].
  assert (E : halves 20 == 1 # 1048576) by reflexivity.
  rewrite E in Hq. lra.
Qed.

Lemma probes_step c h target ref fuel min max :
  probes c h target ref (S fuel) min max =
  let mid := ndiv (nadd min max) (Fin 2) in
  mid :: (if withinTolerance c h target ref mid then []
          else if nltb (wcagContrast {| ok_l := mid; ok_c := c; ok_h := h |} ref) target
               then probes c h target ref fuel min mid
               else probes c h target ref fuel mid max).
Proof. reflexivity. Qed.

Lemma nltb_fin_fin (x y : Q) : nltb (fin x) (fin y) = true <-> x < y.
Proof. unfold fin. rewrite nltb_fin, !Qred_correct. reflexivity. Qed.

Lemma nltb_fin_Fin (x y : Q) : nltb (fin x) (Fin y) = true <-> x < y.
Proof. unfold fin. rewrite nltb_fin, Qred_correct. reflexivity. Qed.

Section MonotoneContrast.

(** The assumption written in the body of [adjustLightnessForContrast]:
    "lower L = higher contrast".  On lightness between 0 and 1 the contrast
    against the reference colour is the finite number [f q], [f] decreases,
    and the target is the contrast of the lightness [Lstar]. *)
Variables (c h : num) (referenceColor : string) (f : Q -> Q) (t Lstar : Q).
Hypothesis contrast_value :
  forall q, 0 <= q <= 1 ->
    wcagContrast {| ok_l := Fin q; ok_c := c; ok_h := h |} referenceColor = Fin (f q).
Hypothesis contrast_decreasing :
  forall x y, 0 <= x -> x <= y -> y <= 1 -> f y <= f x.
Hypothesis contrast_strictly_decreasing :
  forall x y, 0 <= x -> x < y -> y <= 1 -> f y < f x.
Hypothesis target_reached : 0 <= Lstar <= 1 /\ f Lstar == t.

Lemma contrastDiff_value (q : Q) :
  0 <= q <= 1 ->
  contrastDiff c h (Fin t) referenceColor (Fin q) = fin (Qabs (Qred (f q - t))).
Proof.
  intros Hq. unfold contrastDiff. rewrite (contrast_value q Hq). reflexivity.
Qed.

(** The search interval always contains [Lstar], so the last of [fuel]
    probes is within [width / 2^fuel] of it. *)
Lemma probes_close fuel :
  forall a b, 0 <= a -> a <= Lstar -> Lstar <= b -> b <= 1 ->
  length (probes c h (Fin t) referenceColor (S fuel) (Fin a) (Fin b)) = S fuel ->
  exists p, In (Fin p) (probes c h (Fin t) referenceColor (S fuel) (Fin a) (Fin b)) /\
            Qabs (p - Lstar) <= (b - a) * halves (S fuel).
Proof.
  destruct target_reached as [_ Ht].
  induction fuel as [|fuel IH]; intros a b Ha Hlo Hhi Hb Hlen;
    rewrite probes_step in Hlen |- *; cbv zeta in Hlen |- *;
    destruct (midpoint_value a b) as (m & Em & Hm); rewrite Em in Hlen |- *.
  - exists m. split; [now left|].
    cbn [halves]. apply Qabs_Qle_condition. rewrite Hm. split; lra.
  - destruct (withinTolerance c h (Fin t) referenceColor (Fin m));
      [discriminate Hlen|].
    injection Hlen as Hlen.
    assert (Hmr : 0 <= m <= 1) by (rewrite Hm; lra).
    rewrite (contrast_value m Hmr) in Hlen |- *.
    destruct (nltb (Fin (f m)) (Fin t)) eqn:Hcmp.
    + apply nltb_fin in Hcmp.
      assert (Hlt : Lstar <= m).
      { apply Qnot_lt_le. intros Hgt.
        pose proof (contrast_decreasing m Lstar ltac:(lra) ltac:(lra) ltac:(lra)).
        lra. }
      destruct (IH a m Ha Hlo Hlt ltac:(lra) Hlen) as (p & Hin & Hp).
      exists p. split; [now right|].
      assert (E : (m - a) * halves (S fuel) == (b - a) * halves (S (S fuel)))
        by (cbn [halves]; rewrite Hm; ring).
      rewrite <- E. exact Hp.
    + assert (Hge : m <= Lstar).
      { apply Qnot_lt_le. intros Hgt.
        pose proof (contrast_strictly_decreasing Lstar m ltac:(lra) Hgt ltac:(lra))
          as Hs.
        assert (Hc : nltb (Fin (f m)) (Fin t) = true) by (apply nltb_fin; lra).
        congruence. }
      destruct (IH m b ltac:(lra) Hge Hhi Hb Hlen) as (p & Hin & Hp).
      exists p. split; [now right|].
      assert (E : (b - m) * halves (S fuel) == (b - a) * halves (S (S fuel)))
        by (cbn [halves]; rewrite Hm; ring).
      rewrite <- E. exact Hp.
Qed.

(** X2: for a contrast that decreases with lightness and a target some
    lightness [Lstar] reaches, the solver returns a lightness between 0 and 1
    whose contrast is within 0.05 of the target, or else is at least as close
    to the target as the contrast of a probe within [2^-20] of [Lstar]. *)
Theorem adjustLightnessForContrast_converges :
  exists L,
    adjustLightnessForContrast c h (Fin t) referenceColor = Some (Fin L) /\
    0 <= L <= 1 /\
    (Qabs (f L - t) < 0.05 \/
     exists p,
       In (Fin p) (probes c h (Fin t) referenceColor 20 (Fin 0) (Fin 1)) /\
       Qabs (p - Lstar) <= 1 # 1048576 /\
       Qabs (f L - t) <= Qabs (f p - t)).
Proof.
  pose proof (adjustLightnessForContrast_post c h (Fin t) referenceColor) as H.
  pose proof (probes_range c h (Fin t) referenceColor 20 0 1
                ltac:(lra) ltac:(lra) ltac:(lra)) as Hr.
  rewrite List.Forall_forall in Hr.
  destruct target_reached as [Hstar _].
  destruct H as [(pre & L' & Hps & Hres & Hw & _)
                | (Hlen & _ & [(Hres & Hall) | (L' & Hres & HIn & _ & Hall)])].
  - assert (HIn : In L' (probes c h (Fin t) referenceColor 20 (Fin 0) (Fin 1)))
      by (rewrite Hps; apply in_or_app; right; now left).
    destruct (Hr L' HIn) as (q & -> & Hq).
    exists q. split; [exact Hres|]. split; [exact Hq|]. left.
    unfold withinTolerance in Hw. rewrite (contrastDiff_value q Hq) in Hw.
    apply nltb_fin_Fin in Hw. rewrite Qred_correct in Hw. exact Hw.
  - exfalso.
    destruct (probes_S c h (Fin t) referenceColor 19 (Fin 0) (Fin 1)) as (rest & E).
    rewrite E in Hall. apply Forall_inv in Hall.
    destruct (midpoint_value 0 1) as (m & Em & Hm). rewrite Em in Hall.
    rewrite (contrastDiff_value m) in Hall by (rewrite Hm; lra).
    discriminate Hall.
  - destruct (Hr L' HIn) as (q & -> & Hq).
    exists q. split; [exact Hres|]. split; [exact Hq|]. right.
    destruct (probes_close 19 0 1 ltac:(lra) ltac:(lra) ltac:(lra) ltac:(lra) Hlen)
      as (p & Hp & Hclose).
    exists p. split; [exact Hp|]. split.
    + assert (E : (1 - 0) * halves 20 == 1 # 1048576) by reflexivity.
      rewrite E in Hclose. exact Hclose.
    + rewrite List.Forall_forall in Hall. specialize (Hall (Fin p) Hp).
      cbv beta in Hall.
      destruct (Hr (Fin p) Hp) as (p' & Ep & Hpr). injection Ep as <-.
      rewrite (contrastDiff_value p Hpr), (contrastDiff_value q Hq) in Hall.
      apply Qnot_lt_le. intros Hlt.
      assert (Hc : nltb (fin (Qabs (Qred (f p - t)))) (fin (Qabs (Qred (f q - t))))
                   = true).
      { apply nltb_fin_fin. rewrite !Qred_correct. exact Hlt. }
      congruence.
Qed.

End MonotoneContrast.

(** ** More on the palette *)

Lemma natToString_inj (i j : nat) : natToString i = natToString j -> i = j.
Proof.
  unfold natToString. intros H.
  assert (Hn : forall n, Nat.to_uint n <> Decimal.Nil).
  { intros n. rewrite <- (Unsigned.of_to n) at 1. rewrite Unsigned.to_of.
    apply unorm_nonnil. }
  apply Unsigned.to_uint_inj.
  pose proof (NilZero.usu _ (Hn i)) as Hi. pose proof (NilZero.usu _ (Hn j)) as Hj.
  rewrite H in Hi. congruence.
Qed.

Lemma append_inj_r (p a b : string) :
  String.append p a = String.append p b -> a = b.
Proof.
  induction p as [|ch p IH]; simpl; intros H; [exact H|].
  injection H as H. now apply IH.
Qed.

Lemma makeStep_ext id c h steps targets targets' i :
  lookupTarget targets i = lookupTarget targets' i ->
  makeStep id c h steps targets i = makeStep id c h steps targets' i.
Proof. intros H. unfold makeStep, chooseLightness. now rewrite H. Qed.

Lemma lookupTarget_handleContrastChange prev i val :
  lookupTarget (handleContrastChange prev i val) i =
  if isNaN val then TNull else TNum val.
Proof.
  unfold lookupTarget, handleContrastChange. rewrite lookup_insert_eq.
  now destruct (isNaN val).
Qed.

Lemma lookupTarget_handleContrastChange_ne prev i val j :
  j <> i ->
  lookupTarget (handleContrastChange prev i val) j = lookupTarget prev j.
Proof.
  intros H. unfold lookupTarget, handleContrastChange.
  now rewrite lookup_insert_ne by congruence.
Qed.

Lemma round3_unit (q : Q) : 0 <= q <= 1 -> 0 <= round3 q <= 1.
Proof.
  intros [H0 H1].
  pose proof (round3_mono 0 q H0) as Hlo. pose proof (round3_mono q 1 H1) as Hhi.
  assert (E0 : round3 0 == 0) by reflexivity.
  assert (E1 : round3 1 == 1) by reflexivity.
  lra.
Qed.

(** X3: a change of the contrast target at one index changes nothing at the
    other indices: the palette has the same length and the same step at
    every index but the one whose target was set. *)
Theorem handleContrastChange_frame id l c h steps prev index val j :
  j <> index ->
  length (generatePalette id l c h steps (handleContrastChange prev index val))
    = length (generatePalette id l c h steps prev) /\
  nth_error (generatePalette id l c h steps (handleContrastChange prev index val)) j
    = nth_error (generatePalette id l c h steps prev) j.
Proof.
  intros Hne. rewrite !generatePalette_map. split.
  - now rewrite !length_map.
  - rewrite !nth_error_map, nth_error_seq.
    destruct (Nat.ltb j steps); [|reflexivity]. cbn [option_map]. f_equal.
    apply makeStep_ext. now apply lookupTarget_handleContrastChange_ne.
Qed.

(** X4: [handleContrastChange] stores [null] for a value that is [NaN] and
    the value itself otherwise, and touches no other entry; so a map without
    [NaN] entries stays without them. *)
Theorem handleContrastChange_entries prev index val :
  lookupTarget (handleContrastChange prev index val) index
    = (if isNaN val then TNull else TNum val) /\
  (forall j, j <> index ->
     lookupTarget (handleContrastChange prev index val) j = lookupTarget prev j) /\
  ((forall j, lookupTarget prev j <> TNum NaN) ->
   forall j, lookupTarget (handleContrastChange prev index val) j <> TNum NaN).
Proof.
  split; [apply lookupTarget_handleContrastChange|].
  split; [intros j; apply lookupTarget_handleContrastChange_ne|].
  intros Hprev j. destruct (Nat.eq_dec j index) as [->|Hne].
  - rewrite lookupTarget_handleContrastChange. destruct val; discriminate.
  - rewrite lookupTarget_handleContrastChange_ne by exact Hne. apply Hprev.
Qed.

(** X5: after the contrast input of a step is cleared ([parseFloat] gives
    [NaN]) or set to [0], the step is back on the default curve and is not
    contrast-forced; after it is set to a number the solver finds a
    lightness for, the step is rendered from that lightness and is
    contrast-forced. *)
Theorem handleContrastChange_step id l c h steps prev index val :
  (index < steps)%nat ->
  exists step,
    nth_error (generatePalette id l c h steps (handleContrastChange prev index val))
      index = Some step /\
    ColorStep.contrastTarget step = (if isNaN val then TNull else TNum val) /\
    (num_truthy val = false ->
     ColorStep.isContrastForced step = false /\
     ColorStep.css step = oklch (defaultLightness index steps) c h) /\
    (forall L, num_truthy val = true ->
       adjustLightnessForContrast c h val "#ffffff" = Some L ->
       ColorStep.isContrastForced step = true /\
       ColorStep.css step = oklch L c h /\
       ColorStep.l step = roundTo3 L).
Proof.
  intros Hi.
  set (targets := handleContrastChange prev index val).
  exists (makeStep id c h steps targets index).
  split; [now apply generatePalette_nth|].
  destruct (makeStep_lightness id c h steps targets index) as (Hl & Hcss & Hf & Ht).
  pose proof (lookupTarget_handleContrastChange prev index val) as Hlook.
  fold targets in Hlook.
  split; [now rewrite Ht|]. split.
  - intros Hfalsy.
    assert (Hnone : truthyTarget (lookupTarget targets index) = None).
    { rewrite Hlook. destruct (isNaN val); [reflexivity|].
      cbn [truthyTarget]. now rewrite Hfalsy. }
    rewrite Hf, Hcss, (chooseLightness_default c h steps targets index Hnone).
    now split.
  - intros L Htruthy HL.
    assert (HT : lookupTarget targets index = TNum val).
    { rewrite Hlook. destruct val; try reflexivity. discriminate Htruthy. }
    rewrite Hf, Hcss, Hl,
      (chooseLightness_solved c h steps targets index val L HT Htruthy HL).
    now repeat split.
Qed.

(** X6: for at least two steps, the stored lightness [l] of every step is a
    finite number between 0 and 1. *)
Theorem generatePalette_lightness_in_unit id l c h steps targets :
  (2 <= steps)%nat ->
  Forall (fun step => exists q, ColorStep.l step = Fin q /\ 0 <= q <= 1)
         (generatePalette id l c h steps targets).
Proof.
  intros Hs. rewrite generatePalette_map. apply List.Forall_forall.
  intros step Hin. apply in_map_iff in Hin. destruct Hin as (i & <- & Hi).
  apply in_seq in Hi.
  destruct (chooseLightness_unit c h steps targets i Hs ltac:(lia)) as (q & Hq & Hr).
  destruct (roundTo3_unit q Hr) as (ql & Hql & _ & Eql).
  destruct (makeStep_lightness id c h steps targets i) as (Hl & _).
  exists ql. rewrite Hl, Hq. split; [exact Hql|].
  rewrite Eql. now apply round3_unit.
Qed.

(** X7: a contrast-forced step depends on the chroma, the hue and its target
    alone: two steps with the same truthy target that the solver solves have
    the same stored lightness and the same [css], whatever their indices and
    the step counts of their palettes. *)
Theorem forced_step_ignores_position id id' l l' c h steps steps' targets targets'
    i j t si sj :
  nth_error (generatePalette id l c h steps targets) i = Some si ->
  nth_error (generatePalette id' l' c h steps' targets') j = Some sj ->
  lookupTarget targets i = TNum t -> lookupTarget targets' j = TNum t ->
  num_truthy t = true ->
  adjustLightnessForContrast c h t "#ffffff" <> None ->
  ColorStep.isContrastForced si = true /\ ColorStep.isContrastForced sj = true /\
  ColorStep.l si = ColorStep.l sj /\ ColorStep.css si = ColorStep.css sj.
Proof.
  intros Hi Hj Hti Htj Htr Hsome.
  apply generatePalette_nth_inv in Hi. destruct Hi as [_ ->].
  apply generatePalette_nth_inv in Hj. destruct Hj as [_ ->].
  destruct (adjustLightnessForContrast c h t "#ffffff") as [L|] eqn:HL;
    [|congruence].
  destruct (makeStep_lightness id c h steps targets i) as (Hl1 & Hc1 & Hf1 & _).
  destruct (makeStep_lightness id' c h steps' targets' j) as (Hl2 & Hc2 & Hf2 & _).
  rewrite (chooseLightness_solved c h steps targets i t L Hti Htr HL)
    in Hl1, Hc1, Hf1.
  rewrite (chooseLightness_solved c h steps' targets' j t L Htj Htr HL)
    in Hl2, Hc2, Hf2.
  rewrite Hl1, Hl2, Hc1, Hc2, Hf1, Hf2. now repeat split.
Qed.

(** X8: the ids of the steps of a palette are pairwise distinct. *)
Theorem generatePalette_ids_distinct id l c h steps targets :
  List.NoDup (List.map ColorStep.id (generatePalette id l c h steps targets)).
Proof.
  rewrite generatePalette_map, List.map_map.
  apply NoDup_map_NoDup_ForallPairs; [|apply seq_NoDup].
  intros i j _ _ H. rewrite !makeStep_id in H. cbn [String.concat] in H.
  apply append_inj_r in H. apply (append_inj_r "-") in H.
  now apply natToString_inj.
Qed.

Lemma makeStep_stepName id c h steps targets i :
  ColorStep.stepName (makeStep id c h steps targets i) = stepNameOf i.
Proof. unfold makeStep. now destruct chooseLightness. Qed.

Lemma stepNames_20_distinct : List.NoDup (List.map stepNameOf (seq 0 20)).
Proof.
  vm_compute.
  repeat (constructor; [cbn; intuition discriminate|]). constructor.
Qed.

(** X9: the names of the steps of a palette are pairwise distinct exactly
    when it has at most 20 steps: from 21 steps on, the step at index 20 is
    named by its index, "20", which is also the name [STEP_NAMES[13]]. *)
Theorem generatePalette_names_distinct_iff id l c h steps targets :
  List.NoDup (List.map ColorStep.stepName (generatePalette id l c h steps targets))
  <-> (steps <= 20)%nat.
Proof.
  rewrite generatePalette_map, List.map_map.
  rewrite (List.map_ext _ stepNameOf) by (intros i; apply makeStep_stepName).
  split.
  - intros Hnd. destruct (Nat.le_gt_cases steps 20) as [Hle|Hgt]; [exact Hle|].
    exfalso. rewrite NoDup_nth_error in Hnd.
    specialize (Hnd 13%nat 20%nat).
    rewrite length_map, length_seq, !nth_error_map, !nth_error_seq in Hnd.
    destruct (Nat.ltb_spec 13 steps); [|lia].
    destruct (Nat.ltb_spec 20 steps); [|lia].
    specialize (Hnd ltac:(lia) eq_refl). discriminate Hnd.
  - intros Hle. pose proof stepNames_20_distinct as H20.
    replace 20%nat with (steps + (20 - steps))%nat in H20 by lia.
    rewrite seq_app, List.map_app in H20.
    exact (NoDup_app_remove_r _ _ H20).
Qed.

(** ** The handlers of App and PaletteRow *)

(** X10: for finite numbers, [handleStepsChange] never leaves fewer than 3
    steps: the new count is [steps + delta], or 3 when that is smaller.  A
    step up followed by a step down restores any count of at least 3. *)
Theorem handleStepsChange_floor (steps delta : Q) :
  (exists q, handleStepsChange (Fin steps) (Fin delta) = Fin q /\ 3 <= q /\
             (steps + delta <= 3 -> q == 3) /\
             (3 <= steps + delta -> q == steps + delta)) /\
  (3 <= steps ->
   handleStepsChange (handleStepsChange (Fin steps) (Fin 1)) (Fin (-1)) = fin steps).
Proof.
  unfold handleStepsChange. cbn [nadd nmax]. unfold fin. split.
  - destruct (Qle_bool 3 (Qred (steps + delta))) eqn:E.
    + apply Qle_bool_iff in E. rewrite Qred_correct in E.
      eexists. split; [reflexivity|]. rewrite Qred_correct.
      repeat split; intros; lra.
    + apply Qle_bool_false in E. rewrite Qred_correct in E.
      exists 3. split; [reflexivity|]. repeat split; intros; lra.
  - intros Hs.
    assert (E : Qle_bool 3 (Qred (steps + 1)) = true)
      by (apply Qle_bool_iff; rewrite Qred_correct; lra).
    rewrite E. cbn [nadd nmax]. unfold fin.
    assert (Hval : Qred (steps + 1) + -1 == steps)
      by (rewrite Qred_correct; ring).
    assert (E2 : Qle_bool 3 (Qred (Qred (steps + 1) + -1)) = true)
      by (apply Qle_bool_iff; rewrite Qred_correct, Hval; exact Hs).
    rewrite E2. f_equal. now apply Qred_complete.
Qed.

Lemma removePalette_absent palettes id :
  Forall (fun p => ColorFamily.id p <> id) palettes ->
  removePalette palettes id = palettes.
Proof.
  intros H. unfold removePalette. apply forallb_filter_id.
  apply forallb_forall. rewrite List.Forall_forall in H.
  intros p Hp. apply negb_true_iff, String.eqb_neq. now apply H.
Qed.

(** X11: removing the family that [addPalette] has just added gives back
    the families there were, provided none of them had its id. *)
Theorem removePalette_addPalette palettes now r1 r2 r3 :
  Forall (fun p => ColorFamily.id p <> String.append "color-" (natToString now))
         palettes ->
  removePalette (addPalette palettes now r1 r2 r3)
                (String.append "color-" (natToString now)) = palettes.
Proof.
  intros H. unfold addPalette. cbv zeta. unfold removePalette.
  rewrite List.filter_app. fold (removePalette palettes ("color-" ++ natToString now)).
  rewrite (removePalette_absent _ _ H). cbn [List.filter ColorFamily.id].
  rewrite String.eqb_refl. cbn [negb]. apply app_nil_r.
Qed.

Lemma updatePalette_ids palettes id newProps :
  ColorFamily.id newProps = id ->
  List.map ColorFamily.id (updatePalette palettes id newProps)
  = List.map ColorFamily.id palettes.
Proof.
  intros H. unfold updatePalette. rewrite List.map_map. apply List.map_ext.
  intros p. destruct (String.eqb_spec (ColorFamily.id p) id) as [E|_];
    [congruence | reflexivity].
Qed.

Lemma removePalette_updatePalette palettes id newProps :
  ColorFamily.id newProps = id ->
  removePalette (updatePalette palettes id newProps) id = removePalette palettes id.
Proof.
  intros H. unfold removePalette, updatePalette.
  induction palettes as [|p ps IH]; [reflexivity|]. cbn [List.map List.filter].
  rewrite IH.
  destruct (String.eqb_spec (ColorFamily.id p) id) as [E|N].
  - rewrite H, String.eqb_refl. cbn [negb].
    reflexivity.
  - apply String.eqb_neq in N. rewrite N. reflexivity.
Qed.

(** X12: whatever [PaletteRow] reports, a hex change or a change of the
    hue, the ids of the families stay as they are, in the same order, and
    the families with another id are untouched; a hex string the converter
    cannot parse changes nothing. *)
Theorem paletteRow_updates_keep_ids toOklch palettes color newHex val :
  let afterHex := applyUpdate palettes (handleHexChange toOklch color newHex) in
  let afterParam := applyUpdate palettes (Some (handleParamChange color "h" val)) in
  List.map ColorFamily.id afterHex = List.map ColorFamily.id palettes /\
  List.map ColorFamily.id afterParam = List.map ColorFamily.id palettes /\
  removePalette afterHex (ColorFamily.id color)
    = removePalette palettes (ColorFamily.id color) /\
  removePalette afterParam (ColorFamily.id color)
    = removePalette palettes (ColorFamily.id color) /\
  (toOklch newHex = None -> afterHex = palettes).
Proof.
  cbv zeta. unfold handleHexChange, handleParamChange, hexToOklch.
  destruct (toOklch newHex) as [k|]; cbn [applyUpdate].
  - repeat split; try (now apply updatePalette_ids);
      try (now apply removePalette_updatePalette). discriminate.
  - repeat split; try (now apply updatePalette_ids);
      try (now apply removePalette_updatePalette).
Qed.

(** X13: [hexToOklch] returns [null] exactly when the converter gives no
    colour; otherwise it passes lightness and chroma on, and its hue is a
    truthy number or 0: never [NaN], 0 for an achromatic colour. *)
Theorem hexToOklch_hue toOklch hex :
  match hexToOklch toOklch hex with
  | Some oklch =>
      exists color, toOklch hex = Some color /\
        ok_l oklch = cu_l color /\ ok_c oklch = cu_c color /\
        ok_h oklch <> NaN /\
        (cu_h color = None -> ok_h oklch = Fin 0) /\
        (forall x, cu_h color = Some x ->
           ok_h oklch = if num_truthy x then x else Fin 0)
  | None => toOklch hex = None
  end.
Proof.
  unfold hexToOklch. destruct (toOklch hex) as [color|]; [|reflexivity].
  exists color. cbn [ok_l ok_c ok_h]. repeat split.
  - destruct (cu_h color) as [x|]; [|discriminate].
    destruct (num_truthy x) eqn:E; [|discriminate].
    intros ->. discriminate E.
  - now intros ->.
  - now intros x ->.
Qed.

Lemma presetFamilies_ids toOklch hexes :
  forall index,
  Forall (fun fam => exists k, (index <= k)%nat /\
            ColorFamily.id fam = String.append "preset-" (natToString k))
         (presetFamilies toOklch index hexes).
Proof.
  induction hexes as [|hex rest IH]; intros index; cbn [presetFamilies].
  - constructor.
  - assert (Hrest : Forall (fun fam => exists k, (index <= k)%nat /\
                      ColorFamily.id fam = String.append "preset-" (natToString k))
                      (presetFamilies toOklch (S index) rest)).
    { eapply List.Forall_impl; [|apply (IH (S index))]. cbv beta.
      intros fam (k & Hk & E). exists k. split; [lia | exact E]. }
    destruct (hexToOklch toOklch hex); [|exact Hrest].
    constructor; [|exact Hrest]. exists index. split; [lia | reflexivity].
Qed.

Lemma presetFamilies_NoDup toOklch hexes :
  forall index,
  List.NoDup (List.map ColorFamily.id (presetFamilies toOklch index hexes)).
Proof.
  induction hexes as [|hex rest IH]; intros index; cbn [presetFamilies].
  - constructor.
  - destruct (hexToOklch toOklch hex); [|apply IH].
    cbn [List.map ColorFamily.id]. constructor; [|apply IH].
    intros Hin. apply in_map_iff in Hin. destruct Hin as (fam & E & Hfam).
    pose proof (presetFamilies_ids toOklch rest (S index)) as Hids.
    rewrite List.Forall_forall in Hids.
    destruct (Hids fam Hfam) as (k & Hk & Ek).
    rewrite Ek in E. apply append_inj_r, natToString_inj in E. lia.
Qed.

Lemma presetFamilies_length toOklch hexes :
  forall index,
  (length (presetFamilies toOklch index hexes) <= length hexes)%nat.
Proof.
  induction hexes as [|hex rest IH]; intros index; cbn [presetFamilies length].
  - lia.
  - specialize (IH (S index)).
    destruct (hexToOklch toOklch hex); cbn [length]; lia.
Qed.

Lemma presetFamilies_total toOklch hexes :
  (forall hex, In hex hexes -> toOklch hex <> None) ->
  forall index,
  List.map ColorFamily.id (presetFamilies toOklch index hexes) =
  List.map (fun k => String.append "preset-" (natToString k))
           (seq index (length hexes)).
Proof.
  induction hexes as [|hex rest IH]; intros Hall index;
    cbn [presetFamilies length seq List.map]; [reflexivity|].
  unfold hexToOklch at 1.
  destruct (toOklch hex) as [color|] eqn:E.
  - cbn [List.map ColorFamily.id]. f_equal. apply IH.
    intros x Hx. apply Hall. now right.
  - exfalso. apply (Hall hex); [now left | exact E].
Qed.

(** X15: [loadPresets] gives at most 16 families with pairwise distinct
    ids, of which none has the hue [NaN]; when the converter parses all 16
    preset colours, the ids are [preset-0] to [preset-15] in order. *)
Theorem loadPresets_ids toOklch :
  List.NoDup (List.map ColorFamily.id (loadPresets toOklch)) /\
  (length (loadPresets toOklch) <= 16)%nat /\
  ((forall hex, In hex PRESET_COLORS -> toOklch hex <> None) ->
   List.map ColorFamily.id (loadPresets toOklch) =
   List.map (fun k => String.append "preset-" (natToString k)) (seq 0 16)).
Proof.
  unfold loadPresets. split; [apply presetFamilies_NoDup|].
  split; [apply (presetFamilies_length toOklch PRESET_COLORS 0)|].
  intros Hall. apply (presetFamilies_total toOklch PRESET_COLORS Hall 0).
Qed.

End Engine.

(** ** Binary64: whole numbers, the default curve, rounding to three decimals *)

Section Binary64Facts.
Import Floats Uint63 Binary64.

(** *** Whole numbers below [2^53] are binary64 numbers *)

Lemma shl_S p k : shl p (S k) = shl (xO p) k.
Proof. unfold shl. apply Nat.iter_succ_r. Qed.

Lemma digits2_shl p k :
  Zpos (digits2_pos (shl p k)) = (Zpos (digits2_pos p) + Z.of_nat k)%Z.
Proof.
  induction k as [|k IH].
  - cbn. lia.
  - change (shl p (S k)) with (xO (shl p k)). cbn [digits2_pos]. lia.
Qed.

Lemma Zpos_shl p k : Zpos (shl p k) = (Zpos p * 2 ^ Z.of_nat k)%Z.
Proof.
  induction k as [|k IH].
  - cbn. lia.
  - change (shl p (S k)) with (xO (shl p k)).
    rewrite Nat2Z.inj_succ, Z.pow_succ_r by lia. lia.
Qed.

Lemma digits2_bound p : (2 ^ (Zpos (digits2_pos p) - 1) <= Zpos p < 2 ^ Zpos (digits2_pos p))%Z.
Proof.
  induction p as [p IH|p IH|]; cbn [digits2_pos].
  - rewrite Pos2Z.inj_succ. replace (Z.succ (Zpos (digits2_pos p)) - 1)%Z with (Z.succ (Zpos (digits2_pos p) - 1)) by lia.
    rewrite !Z.pow_succ_r by lia. lia.
  - rewrite Pos2Z.inj_succ. replace (Z.succ (Zpos (digits2_pos p)) - 1)%Z with (Z.succ (Zpos (digits2_pos p) - 1)) by lia.
    rewrite !Z.pow_succ_r by lia. lia.
  - cbn. lia.
Qed.

Lemma digits2_le_53 p : (Zpos p < 2 ^ 53)%Z -> (Zpos (digits2_pos p) <= 53)%Z.
Proof.
  intros H. pose proof (digits2_bound p) as [Hlo _].
  destruct (Z_le_gt_dec (Zpos (digits2_pos p)) 53) as [|Hgt]; [assumption|exfalso].
  assert (2 ^ 53 <= 2 ^ (Zpos (digits2_pos p) - 1))%Z by (apply Z.pow_le_mono_r; lia).
  lia.
Qed.

Lemma iter_pos_nat {A} (f : A -> A) j x : iter_pos f j x = Nat.iter (Pos.to_nat j) f x.
Proof.
  revert x. induction j as [j IH|j IH|]; intros x; cbn [iter_pos].
  - rewrite !IH. rewrite Pos2Nat.inj_xI. 
    replace (S (2 * Pos.to_nat j)) with (Pos.to_nat j + (Pos.to_nat j + 1))%nat by lia.
    rewrite !Nat.iter_add. reflexivity.
  - rewrite !IH. rewrite Pos2Nat.inj_xO.
    replace (2 * Pos.to_nat j)%nat with (Pos.to_nat j + Pos.to_nat j)%nat by lia.
    rewrite Nat.iter_add. reflexivity.
  - reflexivity.
Qed.

Lemma shr_shl q k :
  Nat.iter k shr_1 (Build_shr_record (Zpos (shl q k)) false false)
  = Build_shr_record (Zpos q) false false.
Proof.
  revert q. induction k as [|k IH]; intros q.
  - reflexivity.
  - rewrite shl_S.
    change (shr_1 (Nat.iter k shr_1 (Build_shr_record (Zpos (shl (xO q) k)) false false))
            = Build_shr_record (Zpos q) false false).
    rewrite IH. reflexivity.
Qed.

(** Aligning a mantissa to a smaller exponent shifts it to the left. *)
Lemma shl_align_spec m e e' :
  shl_align m e e' = if (e' <? e)%Z then (shl m (Z.to_nat (e - e')), e') else (m, e).
Proof.
  unfold shl_align. destruct (e' - e)%Z as [|d|d] eqn:E.
  - replace (e' <? e)%Z with false by (symmetry; apply Z.ltb_ge; lia). reflexivity.
  - replace (e' <? e)%Z with false by (symmetry; apply Z.ltb_ge; lia). reflexivity.
  - replace (e' <? e)%Z with true by (symmetry; apply Z.ltb_lt; lia).
    replace (e - e')%Z with (Zpos d) by lia. 
    rewrite Z2Nat.inj_pos. unfold shl. rewrite Pos2Nat.inj_iter. reflexivity.
Qed.

Lemma fexp_53 e : (-1021 <= e)%Z -> fexp prec emax e = (e - 53)%Z.
Proof. intros H. unfold fexp, emin, prec, emax. lia. Qed.

(** A 53-digit mantissa with an exponent in range is left as it is. *)
Lemma binary_round_aux_canonical m e :
  Zpos (digits2_pos m) = 53%Z -> (-1074 <= e <= 971)%Z ->
  binary_round_aux prec emax false (Zpos m) e loc_Exact = S754_finite false m e.
Proof.
  intros Hd He.
  assert (Hs : shr_fexp prec emax (Zpos m) e loc_Exact
               = (Build_shr_record (Zpos m) false false, e)).
  { unfold shr_fexp. cbn [Zdigits2 shr_record_of_loc]. rewrite Hd.
    rewrite fexp_53 by lia. replace (53 + e - 53 - e)%Z with 0%Z by lia. reflexivity. }
  unfold binary_round_aux. rewrite Hs.
  cbn [shr_m loc_of_shr_record round_nearest_even]. rewrite Hs.
  cbn [shr_m]. replace (e <=? emax - prec)%Z with true; [reflexivity|].
  symmetry. apply Z.leb_le. unfold emax, prec. lia.
Qed.


(** Rounding [p * 2^k] at the exponent [-k] gives the number of [p]. *)
Lemma binary_round_shl p k :
  (Zpos p < 2 ^ 53)%Z ->
  binary_round prec emax false (shl p k) (- Z.of_nat k) = canonical p.
Proof.
  intros Hp. pose proof (digits2_le_53 p Hp) as Hd.
  assert (Hd1 : (1 <= Zpos (digits2_pos p))%Z) by lia.
  unfold binary_round, canonical.
  rewrite digits2_shl. rewrite fexp_53 by lia.
  rewrite shl_align_spec.
  set (d := Zpos (digits2_pos p)) in *.
  destruct (Z.ltb_spec (d + Z.of_nat k + - Z.of_nat k - 53) (- Z.of_nat k)) as [Hlt|Hge].
  - (* the mantissa is shifted left *)
    replace (d + Z.of_nat k + - Z.of_nat k - 53)%Z with (d - 53)%Z by lia.
    assert (E : shl (shl p k) (Z.to_nat (- Z.of_nat k - (d - 53)))
                = shl p (Z.to_nat (53 - d))).
    { unfold shl. rewrite <- Nat.iter_add. f_equal. lia. }
    rewrite E. apply binary_round_aux_canonical.
    + rewrite digits2_shl. fold d. lia.
    + lia.
  - (* the mantissa is shifted right, exactly *)
    set (j := Z.to_nat (d - 53 + Z.of_nat k)).
    assert (Ek : k = (j + Z.to_nat (53 - d))%nat) by lia.
    assert (Hs : shr_fexp prec emax (Zpos (shl p k)) (- Z.of_nat k) loc_Exact
                 = (Build_shr_record (Zpos (shl p (Z.to_nat (53 - d)))) false false,
                    (d - 53)%Z)).
    { unfold shr_fexp. cbn [Zdigits2 shr_record_of_loc]. rewrite digits2_shl. fold d.
      rewrite fexp_53 by lia.
      replace (d + Z.of_nat k + - Z.of_nat k - 53 - - Z.of_nat k)%Z with (Z.of_nat j) by lia.
      destruct j as [|j'] eqn:Ej.
      - change (Z.of_nat 0) with 0%Z. unfold shr. rewrite Ek. cbn [Nat.add]. f_equal. lia.
      - change (Z.of_nat (S j')) with (Zpos (Pos.of_succ_nat j')). unfold shr.
        rewrite iter_pos_nat, SuccNat2Pos.id_succ.
        f_equal; [|lia].
        assert (E : shl p k = shl (shl p (Z.to_nat (53 - d))) (S j')).
        { unfold shl. rewrite <- Nat.iter_add. f_equal. lia. }
        rewrite E. apply shr_shl. }
    assert (Hs2 : shr_fexp prec emax (Zpos (shl p (Z.to_nat (53 - d)))) (d - 53) loc_Exact
               = (Build_shr_record (Zpos (shl p (Z.to_nat (53 - d)))) false false, (d - 53)%Z)).
    { unfold shr_fexp. cbn [Zdigits2 shr_record_of_loc]. rewrite digits2_shl. fold d.
      rewrite fexp_53 by lia.
      replace (d + Z.of_nat (Z.to_nat (53 - d)) + (d - 53) - 53 - (d - 53))%Z with 0%Z by lia.
      reflexivity. }
    unfold binary_round_aux. rewrite Hs.
    cbn [shr_m loc_of_shr_record round_nearest_even]. rewrite Hs2.
    cbn [shr_m]. replace (d - 53 <=? emax - prec)%Z with true; [reflexivity|].
    symmetry. apply Z.leb_le. unfold emax, prec. lia.
Qed.

(** The number of a positive integer below [2^53]. *)
Lemma of_nat_spec n :
  (0 < n)%nat -> (Z.of_nat n < 2 ^ 53)%Z ->
  Prim2SF (of_nat n) = canonical (Pos.of_nat n).
Proof.
  intros Hn Hb. unfold of_nat. rewrite of_uint63_spec.
  assert (E : Uint63Axioms.to_Z (of_Z (Z.of_nat n)) = Zpos (Pos.of_nat n)).
  { rewrite of_Z_spec. rewrite Z.mod_small.
    - destruct n; [lia|]. rewrite <- Pos.of_nat_succ. lia.
    - split; [lia|]. eapply Z.lt_trans; [exact Hb|]. reflexivity. }
  rewrite E. cbn [binary_normalize].
  apply (binary_round_shl (Pos.of_nat n) 0). 
  destruct n; [lia|]. rewrite <- Pos.of_nat_succ in *. lia.
Qed.

(** [steps - 1], computed on numbers, is the number of [steps - 1]. *)
Lemma of_nat_pred n :
  (2 <= n)%nat -> (Z.of_nat n < 2 ^ 53)%Z ->
  (of_nat n - 1)%float = of_nat (n - 1).
Proof.
  intros Hn Hb. apply Prim2SF_inj.
  rewrite FloatAxioms.sub_spec, (of_nat_spec n), (of_nat_spec (n - 1)) by lia.
  change (Prim2SF 1) with (S754_finite false (shl 1 52) (-52)).
  set (p := Pos.of_nat n).
  assert (Hp : Zpos p = Z.of_nat n).
  { unfold p. destruct n; [lia|]. rewrite <- Pos.of_nat_succ. lia. }
  assert (Hq : Pos.of_nat (n - 1) = Pos.pred p).
  { unfold p. apply Pos2Z.inj. rewrite Pos2Z.inj_pred by lia.
    destruct n as [|[|n]]; [lia|lia|].
    replace (S (S n) - 1)%nat with (S n) by lia.
    rewrite <- !Pos.of_nat_succ. lia. }
  rewrite Hq.
  assert (Hpq : (Zpos (Pos.pred p) = Zpos p - 1)%Z) by (rewrite Pos2Z.inj_pred; lia).
  pose proof (digits2_bound p) as [_ Hhi].
  assert (Hp53 : (Zpos p < 2 ^ 53)%Z) by lia.
  pose proof (digits2_le_53 p Hp53) as Hd.
  assert (Hd2 : (2 <= Zpos (digits2_pos p))%Z).
  { destruct (Z_le_gt_dec 2 (Zpos (digits2_pos p))) as [|Hgt]; [assumption|exfalso].
    assert (E : Zpos (digits2_pos p) = 1%Z) by lia. rewrite E in Hhi. lia. }
  unfold canonical at 1. unfold SF64sub, SFsub.
  set (d := Zpos (digits2_pos p)) in *.
  rewrite Z.min_r by lia.
  rewrite !shl_align_spec.
  replace (-52 <? d - 53)%Z with true by (symmetry; apply Z.ltb_lt; lia).
  rewrite Z.ltb_irrefl. cbn [fst cond_Zopp].
  assert (E : (Zpos (shl (shl p (Z.to_nat (53 - d))) (Z.to_nat (d - 53 - -52)))
               - Zpos (shl 1 52))%Z = Zpos (shl (Pos.pred p) 52)).
  { rewrite !Zpos_shl, Hpq.
    replace (Z.of_nat (Z.to_nat (d - 53 - -52))) with (52 - Z.of_nat (Z.to_nat (53 - d)))%Z by lia.
    set (a := Z.of_nat (Z.to_nat (53 - d))).
    assert (Ha : (0 <= a <= 52)%Z) by lia.
    replace (2 ^ Z.of_nat 52)%Z with (2 ^ a * 2 ^ (52 - a))%Z
      by (rewrite <- Z.pow_add_r by lia; f_equal; lia).
    lia. }
  rewrite E. cbn [binary_normalize].
  apply (binary_round_shl (Pos.pred p) 52). lia.
Qed.

(** [0 / x = 0] and [x / x = 1] for a positive number [x]. *)
Lemma div_zero_l x m e :
  Prim2SF x = S754_finite false m e -> (0 / x)%float = 0%float.
Proof.
  intros H. apply Prim2SF_inj. rewrite FloatAxioms.div_spec, H. reflexivity.
Qed.

Lemma div_diag x m e :
  Prim2SF x = S754_finite false m e -> (x / x)%float = 1%float.
Proof.
  intros H. apply Prim2SF_inj. rewrite FloatAxioms.div_spec, H.
  unfold SF64div, SFdiv, SFdiv_core_binary.
  cbn [Zdigits2 xorb].
  rewrite Z.sub_diag.
  replace (Zpos (digits2_pos m) + e - (Zpos (digits2_pos m) + e))%Z with 0%Z by lia.
  change (Z.min (fexp prec emax 0) 0) with (-53)%Z.
  change (0 - -53)%Z with 53%Z. cbv iota beta.
  rewrite Z.shiftl_mul_pow2 by lia.
  assert (E : Z.div_eucl (Zpos m * 2 ^ 53) (Zpos m) = (2 ^ 53, 0)%Z).
  { assert (H1 : Z.div_eucl (Zpos m * 2 ^ 53) (Zpos m)
                 = ((Zpos m * 2 ^ 53) / Zpos m, (Zpos m * 2 ^ 53) mod Zpos m)%Z).
    { unfold Z.div, Z.modulo.
      now destruct (Z.div_eucl (Zpos m * 2 ^ 53) (Zpos m)). }
    rewrite H1, (Z.mul_comm (Zpos m)), Z.div_mul, Z.mod_mul by lia. reflexivity. }
  rewrite E.
  assert (L : new_location (Zpos m) 0 = loc_Exact).
  { unfold new_location, new_location_even, new_location_odd.
    destruct (Z.even (Zpos m)); reflexivity. }
  rewrite L. reflexivity.
Qed.


(** *** The two ends of the default curve *)

Lemma defaultLightness_first steps :
  (2 <= steps)%nat -> (Z.of_nat steps < 2 ^ 53)%Z ->
  defaultLightness 0 steps = 0.97%float.
Proof.
  intros Hs Hb. unfold defaultLightness.
  rewrite of_nat_pred by assumption.
  pose proof (of_nat_spec (steps - 1) ltac:(lia) ltac:(lia)) as H.
  change (of_nat 0) with 0%float. rewrite (div_zero_l _ _ _ H). reflexivity.
Qed.

Lemma defaultLightness_last steps :
  (2 <= steps)%nat -> (Z.of_nat steps < 2 ^ 53)%Z ->
  defaultLightness (steps - 1) steps = 0.06999999999999995%float.
Proof.
  intros Hs Hb. unfold defaultLightness.
  rewrite of_nat_pred by assumption.
  pose proof (of_nat_spec (steps - 1) ltac:(lia) ltac:(lia)) as H.
  rewrite (div_diag _ _ _ H). reflexivity.
Qed.

(** *** Rounding to 53 digits *)

Lemma digits2_unique m k :
  (2 ^ (k - 1) <= Zpos m < 2 ^ k)%Z -> Zpos (digits2_pos m) = k.
Proof.
  intros [Hlo Hhi]. pose proof (digits2_bound m) as [Dlo Dhi].
  set (D := Zpos (digits2_pos m)) in *.
  assert (Hk : (0 < k)%Z).
  { destruct (Z_lt_le_dec 0 k) as [|Hk]; [assumption|exfalso].
    destruct (Z.eq_dec k 0%Z) as [->|]; [cbn in Hhi; lia|].
    rewrite (Z.pow_neg_r 2 k) in Hhi by lia. lia. }
  destruct (Z.lt_trichotomy D k) as [H|[H|H]]; [exfalso|exact H|exfalso].
  - assert (2 ^ D <= 2 ^ (k - 1))%Z by (apply Z.pow_le_mono_r; lia). lia.
  - assert (2 ^ k <= 2 ^ (D - 1))%Z by (apply Z.pow_le_mono_r; lia). lia.
Qed.

(** Shifting to the right halves the mantissa. *)
Lemma shr_1_m mrs : (0 <= shr_m mrs)%Z -> shr_m (shr_1 mrs) = (shr_m mrs / 2)%Z.
Proof.
  destruct mrs as [m r s]. cbn [shr_m]. intros Hm.
  destruct m as [|[p|p|]|p]; cbn [shr_1 shr_m].
  - reflexivity.
  - apply Z.div_unique with 1%Z; lia.
  - apply Z.div_unique with 0%Z; lia.
  - reflexivity.
  - lia.
Qed.

Lemma shr_iter_m n mrs :
  (0 <= shr_m mrs)%Z ->
  shr_m (Nat.iter n shr_1 mrs) = (shr_m mrs / 2 ^ Z.of_nat n)%Z.
Proof.
  intros Hm. induction n as [|n IH].
  - cbn [Nat.iter]. change (2 ^ Z.of_nat 0)%Z with 1%Z. now rewrite Z.div_1_r.
  - change (Nat.iter (S n) shr_1 mrs) with (shr_1 (Nat.iter n shr_1 mrs)).
    rewrite shr_1_m; rewrite IH.
    + rewrite Nat2Z.inj_succ, Z.pow_succ_r by lia.
      rewrite Z.div_div by lia. f_equal. lia.
    + apply Z.div_pos; lia.
Qed.

(** The first step of rounding: the mantissa is cut to 53 digits. *)
Lemma shr_fexp_m m e l :
  let D := Zpos (digits2_pos m) in
  (53 <= D)%Z -> (-1074 <= e + D - 53)%Z ->
  exists mrs, shr_fexp prec emax (Zpos m) e l = (mrs, (e + (D - 53))%Z) /\
              shr_m mrs = (Zpos m / 2 ^ (D - 53))%Z.
Proof.
  intros D HD He. unfold shr_fexp. cbn [Zdigits2]. fold D.
  rewrite fexp_53 by lia.
  assert (Hm : shr_m (shr_record_of_loc (Zpos m) l) = Zpos m)
    by (destruct l as [|[| |]]; reflexivity).
  replace (D + e - 53 - e)%Z with (D - 53)%Z by lia.
  destruct (D - 53)%Z as [|n|n] eqn:En; [|clear HD|lia].
  - unfold shr. eexists. split; [f_equal; lia|]. rewrite Hm.
    change (2 ^ 0)%Z with 1%Z. now rewrite Z.div_1_r.
  - unfold shr. eexists. split; [reflexivity|].
    rewrite iter_pos_nat, shr_iter_m by (rewrite Hm; lia).
    rewrite Hm, positive_nat_Z. reflexivity.
Qed.

Lemma round_nearest_even_cases m l :
  round_nearest_even m l = m \/ round_nearest_even m l = (m + 1)%Z.
Proof.
  destruct l as [|[| |]]; cbn [round_nearest_even]; auto.
  destruct (Z.even m); auto.
Qed.

(** Rounding a mantissa of at least 53 digits, away from underflow and
    overflow: the result is the mantissa cut to 53 digits, or the next one. *)
Lemma binary_round_aux_bracket mx ex lx :
  let D := Zpos (digits2_pos mx) in
  let E := (ex + (D - 53))%Z in
  let m' := (Zpos mx / 2 ^ (D - 53))%Z in
  (53 <= D)%Z -> (-1074 <= E <= 970)%Z ->
  exists m e,
    binary_round_aux prec emax false (Zpos mx) ex lx = S754_finite false m e /\
    (2 ^ 52 <= Zpos m < 2 ^ 53)%Z /\
    ((e = E /\ (Zpos m = m' \/ Zpos m = m' + 1)%Z)
     \/ (e = (E + 1)%Z /\ Zpos m = (2 ^ 52)%Z /\ (m' + 1 = 2 ^ 53)%Z)).
Proof.
  intros D E m' HD HE.
  destruct (shr_fexp_m mx ex lx HD ltac:(fold D; unfold E in HE; lia))
    as (mrs & Hs & Hm).
  fold D in Hs, Hm. fold E in Hs. fold m' in Hm.
  assert (Hm' : (2 ^ 52 <= m' < 2 ^ 53)%Z).
  { pose proof (digits2_bound mx) as [Hlo Hhi]. fold D in Hlo, Hhi.
    assert (E1 : (2 ^ (D - 1) = 2 ^ 52 * 2 ^ (D - 53))%Z)
      by (rewrite <- Z.pow_add_r by lia; f_equal; lia).
    assert (E2 : (2 ^ D = 2 ^ 53 * 2 ^ (D - 53))%Z)
      by (rewrite <- Z.pow_add_r by lia; f_equal; lia).
    assert (Hp : (0 < 2 ^ (D - 53))%Z) by (apply Z.pow_pos_nonneg; lia).
    unfold m'. split.
    - apply Z.div_le_lower_bound; lia.
    - apply Z.div_lt_upper_bound; lia. }
  unfold binary_round_aux. rewrite Hs, Hm.
  destruct (round_nearest_even_cases m' (loc_of_shr_record mrs)) as [R | R]; rewrite R.
  - (* the mantissa is kept *)
    destruct m' as [|p|p] eqn:Ep; try lia.
    assert (Dp : Zpos (digits2_pos p) = 53%Z) by (apply digits2_unique; lia).
    destruct (shr_fexp_m p E loc_Exact ltac:(lia) ltac:(lia)) as (mrs2 & Hs2 & Hm2).
    rewrite Dp in Hs2, Hm2. change (53 - 53)%Z with 0%Z in Hs2, Hm2.
    rewrite Z.add_0_r in Hs2. change (2 ^ 0)%Z with 1%Z in Hm2.
    rewrite Z.div_1_r in Hm2. rewrite Hs2, Hm2.
    replace (E <=? emax - prec)%Z with true
      by (symmetry; apply Z.leb_le; unfold emax, prec; lia).
    exists p, E. split; [reflexivity|]. split; [lia|]. left. split; [reflexivity|]. now left.
  - destruct (Z.eq_dec (m' + 1)%Z (2 ^ 53)%Z) as [Hov|Hov].
    + (* the mantissa overflows to 2^53 *)
      rewrite Hov. change (2 ^ 53)%Z with (Zpos (shl 1 53)).
      destruct (shr_fexp_m (shl 1 53) E loc_Exact) as (mrs2 & Hs2 & Hm2).
      { vm_compute. discriminate. }
      { replace (Zpos (digits2_pos (shl 1 53))) with 54%Z by reflexivity. lia. }
      replace (Zpos (digits2_pos (shl 1 53))) with 54%Z in Hs2, Hm2 by reflexivity.
      change (54 - 53)%Z with 1%Z in Hs2, Hm2.
      change (Zpos (shl 1 53) / 2 ^ 1)%Z with (Zpos (shl 1 52)) in Hm2.
      rewrite Hs2, Hm2.
      replace (E + 1 <=? emax - prec)%Z with true
        by (symmetry; apply Z.leb_le; unfold emax, prec; lia).
      exists (shl 1 52), (E + 1)%Z. split; [reflexivity|].
      split; [vm_compute; split; [discriminate | reflexivity]|].
      right. split; [reflexivity|]. split; reflexivity.
    + destruct (m' + 1)%Z as [|p|p] eqn:Ep; try lia.
      assert (Dp : Zpos (digits2_pos p) = 53%Z) by (apply digits2_unique; lia).
      destruct (shr_fexp_m p E loc_Exact ltac:(lia) ltac:(lia)) as (mrs2 & Hs2 & Hm2).
      rewrite Dp in Hs2, Hm2. change (53 - 53)%Z with 0%Z in Hs2, Hm2.
      rewrite Z.add_0_r in Hs2. change (2 ^ 0)%Z with 1%Z in Hm2.
      rewrite Z.div_1_r in Hm2. rewrite Hs2, Hm2.
      replace (E <=? emax - prec)%Z with true
        by (symmetry; apply Z.leb_le; unfold emax, prec; lia).
      exists p, E. split; [reflexivity|]. split; [lia|]. left. split; [reflexivity|]. now right.
Qed.

Lemma pow2_pos e : 0 < 2 ^ e.
Proof. apply Qpower_0_lt. reflexivity. Qed.

Lemma pow2_add a b : 2 ^ (a + b) == 2 ^ a * 2 ^ b.
Proof. apply Qpower_plus. discriminate. Qed.

Lemma pow2_inject n : (0 <= n)%Z -> inject_Z (2 ^ n) == 2 ^ n.
Proof. intros H. now rewrite Zpower_Qpower. Qed.

Lemma dyadic_pos m e : 0 < dyadic (Zpos m) e.
Proof.
  unfold dyadic. apply Qmult_lt_0_compat; [reflexivity | apply pow2_pos].
Qed.

(** The value of the rounded number is at most [1 + 2^-52] times the value
    rounded, and its exponent is the one of the cut mantissa, or the next. *)
Lemma binary_round_aux_value mx ex lx :
  let D := Zpos (digits2_pos mx) in
  let E := (ex + (D - 53))%Z in
  (53 <= D)%Z -> (-1074 <= E <= 970)%Z ->
  exists m e,
    binary_round_aux prec emax false (Zpos mx) ex lx = S754_finite false m e /\
    (2 ^ 52 <= Zpos m < 2 ^ 53)%Z /\ (E <= e <= E + 1)%Z /\
    dyadic (Zpos m) e <= dyadic (Zpos mx) ex * (1 + (1 # 2 ^ 52)).
Proof.
  intros D E HD HE.
  destruct (binary_round_aux_bracket mx ex lx HD HE) as (m & e & Hr & Hm & Hc).
  fold D E in Hc. set (m' := (Zpos mx / 2 ^ (D - 53))%Z) in *.
  exists m, e. split; [exact Hr|]. split; [exact Hm|].
  split; [destruct Hc as [(-> & _) | (-> & _)]; lia|].
  assert (Hp : (0 < 2 ^ (D - 53))%Z) by (apply Z.pow_pos_nonneg; lia).
  assert (Hm' : (2 ^ 52 <= m')%Z).
  { destruct Hc as [(_ & [H | H]) | (_ & _ & H)]; [| |lia].
    - rewrite <- H. lia.
    - (* m = m' + 1 < 2^53 and m' is at least 2^52 *)
      pose proof (digits2_bound mx) as [Hlo _]. fold D in Hlo.
      assert (E1 : (2 ^ (D - 1) = 2 ^ 52 * 2 ^ (D - 53))%Z)
        by (rewrite <- Z.pow_add_r by lia; f_equal; lia).
      unfold m'. apply Z.div_le_lower_bound; lia. }
  assert (Hx : (m' * 2 ^ (D - 53) <= Zpos mx)%Z).
  { unfold m'. rewrite Z.mul_comm. apply Z.mul_div_le. lia. }
  assert (HT : dyadic (Zpos m) e <= (inject_Z m' + 1) * 2 ^ E).
  { unfold dyadic. destruct Hc as [(-> & [-> | ->]) | (-> & -> & Hov)].
    - pose proof (pow2_pos E). nra.
    - rewrite inject_Z_plus. change (inject_Z 1) with 1. lra.
    - rewrite pow2_add. change (2 ^ 1) with 2.
      assert (Em : inject_Z m' + 1 == inject_Z (2 ^ 53)).
      { rewrite <- Hov, inject_Z_plus. reflexivity. }
      rewrite Em. change (inject_Z (2 ^ 52)) with (inject_Z 4503599627370496).
      change (inject_Z (2 ^ 53)) with (inject_Z 9007199254740992).
      set (P := 2 ^ E).
      assert (inject_Z 4503599627370496 * 2 == inject_Z 9007199254740992) by reflexivity.
      rewrite <- H. ring_simplify. lra. }
  assert (HX : inject_Z m' * 2 ^ E <= dyadic (Zpos mx) ex).
  { unfold dyadic, E. rewrite pow2_add.
    assert (EB : 2 ^ (D - 53) == inject_Z (2 ^ (D - 53)))
      by (symmetry; apply pow2_inject; lia).
    rewrite EB. rewrite Zle_Qle, inject_Z_mult in Hx.
    pose proof (pow2_pos ex).
    set (A := inject_Z m') in *. set (B := inject_Z (2 ^ (D - 53))) in *.
    set (X := inject_Z (Zpos mx)) in *. set (Px := 2 ^ ex) in *.
    nra. }
  rewrite Zle_Qle in Hm'. change (inject_Z (2 ^ 52)) with 4503599627370496 in Hm'.
  pose proof (pow2_pos E) as HP.
  set (A := inject_Z m') in *. set (P := 2 ^ E) in *.
  set (T := dyadic (Zpos m) e) in *. set (X := dyadic (Zpos mx) ex) in *.
  change (1 # 2 ^ 52) with (1 # 4503599627370496).
  nra.
Qed.

(** *** The three operations on positive normal numbers *)

Lemma digits2_53 m : (2 ^ 52 <= Zpos m < 2 ^ 53)%Z -> Zpos (digits2_pos m) = 53%Z.
Proof. intros H. apply digits2_unique. exact H. Qed.

Lemma dyadic_mul m1 e1 m2 e2 : dyadic (m1 * m2) (e1 + e2) == dyadic m1 e1 * dyadic m2 e2.
Proof. unfold dyadic. rewrite inject_Z_mult, pow2_add. ring. Qed.

(** The product of two positive normal numbers. *)
Lemma SFmul_value m1 e1 m2 e2 :
  (2 ^ 52 <= Zpos m1 < 2 ^ 53)%Z -> (2 ^ 52 <= Zpos m2 < 2 ^ 53)%Z ->
  (-400 <= e1 + e2 <= 400)%Z ->
  exists m e,
    SFmul prec emax (S754_finite false m1 e1) (S754_finite false m2 e2)
      = S754_finite false m e /\
    (2 ^ 52 <= Zpos m < 2 ^ 53)%Z /\ (e1 + e2 + 52 <= e <= e1 + e2 + 54)%Z /\
    dyadic (Zpos m) e <= dyadic (Zpos m1) e1 * dyadic (Zpos m2) e2 * (1 + (1 # 2 ^ 52)).
Proof.
  intros H1 H2 He. cbn [SFmul xorb].
  assert (HP : (2 ^ 104 <= Zpos (m1 * m2) < 2 ^ 106)%Z).
  { rewrite Pos2Z.inj_mul.
    change (2 ^ 104)%Z with (2 ^ 52 * 2 ^ 52)%Z.
    change (2 ^ 106)%Z with (2 ^ 53 * 2 ^ 53)%Z. nia. }
  pose proof (digits2_bound (m1 * m2)) as [Dlo Dhi].
  set (D := Zpos (digits2_pos (m1 * m2))) in *.
  assert (HD : (105 <= D <= 106)%Z).
  { split.
    - destruct (Z_lt_le_dec D 105) as [H|H]; [exfalso|exact H].
      assert (2 ^ D <= 2 ^ 104)%Z by (apply Z.pow_le_mono_r; lia). lia.
    - destruct (Z_lt_le_dec 106 D) as [H|H]; [exfalso|exact H].
      assert (2 ^ 106 <= 2 ^ (D - 1))%Z by (apply Z.pow_le_mono_r; lia). lia. }
  destruct (binary_round_aux_value (m1 * m2) (e1 + e2) loc_Exact)
    as (m & e & Hr & Hm & Hee & Hv); fold D; [lia | lia |].
  fold D in Hee. exists m, e. split; [exact Hr|]. split; [exact Hm|]. split; [lia|].
  rewrite Pos2Z.inj_mul, dyadic_mul in Hv. exact Hv.
Qed.

Lemma div_eucl_div_mod a b : Z.div_eucl a b = ((a / b)%Z, (a mod b)%Z).
Proof. unfold Z.div, Z.modulo. now destruct (Z.div_eucl a b). Qed.

(** The quotient of two positive normal numbers. *)
Lemma SFdiv_value m1 e1 m2 e2 :
  (2 ^ 52 <= Zpos m1 < 2 ^ 53)%Z -> (2 ^ 52 <= Zpos m2 < 2 ^ 53)%Z ->
  (-400 <= e1 - e2 <= 400)%Z ->
  exists m e,
    SFdiv prec emax (S754_finite false m1 e1) (S754_finite false m2 e2)
      = S754_finite false m e /\
    (2 ^ 52 <= Zpos m < 2 ^ 53)%Z /\ (e1 - e2 - 53 <= e <= e1 - e2 - 51)%Z /\
    dyadic (Zpos m) e * dyadic (Zpos m2) e2 <= dyadic (Zpos m1) e1 * (1 + (1 # 2 ^ 52)).
Proof.
  intros H1 H2 He. unfold SFdiv, SFdiv_core_binary. cbn [xorb Zdigits2].
  rewrite (digits2_53 m1 H1), (digits2_53 m2 H2).
  replace (53 + e1 - (53 + e2))%Z with (e1 - e2)%Z by lia.
  rewrite fexp_53 by lia. rewrite Z.min_l by lia.
  replace (e1 - e2 - (e1 - e2 - 53))%Z with 53%Z by lia.
  cbv iota. rewrite Z.shiftl_mul_pow2 by lia. rewrite div_eucl_div_mod.
  set (q := (Zpos m1 * 2 ^ 53 / Zpos m2)%Z).
  assert (Hq : (2 ^ 52 <= q < 2 ^ 54)%Z).
  { unfold q. split.
    - apply Z.div_le_lower_bound; [lia|].
      change (2 ^ 53)%Z with 9007199254740992%Z in *.
      change (2 ^ 52)%Z with 4503599627370496%Z in *. nia.
    - apply Z.div_lt_upper_bound; [lia|].
      change (2 ^ 54)%Z with 18014398509481984%Z.
      change (2 ^ 53)%Z with 9007199254740992%Z in *.
      change (2 ^ 52)%Z with 4503599627370496%Z in *. nia. }
  assert (Hqm : (q * Zpos m2 <= Zpos m1 * 2 ^ 53)%Z).
  { unfold q. rewrite Z.mul_comm. apply Z.mul_div_le. lia. }
  destruct q as [|qp|qp] eqn:Eq; try lia.
  pose proof (digits2_bound qp) as [Dlo Dhi].
  set (D := Zpos (digits2_pos qp)) in *.
  assert (HD : (53 <= D <= 54)%Z).
  { split.
    - destruct (Z_lt_le_dec D 53) as [H|H]; [exfalso|exact H].
      assert (2 ^ D <= 2 ^ 52)%Z by (apply Z.pow_le_mono_r; lia). lia.
    - destruct (Z_lt_le_dec 54 D) as [H|H]; [exfalso|exact H].
      assert (2 ^ 54 <= 2 ^ (D - 1))%Z by (apply Z.pow_le_mono_r; lia). lia. }
  destruct (binary_round_aux_value qp (e1 - e2 - 53)
              (new_location (Zpos m2) (Zpos m1 * 2 ^ 53 mod Zpos m2)))
    as (m & e & Hr & Hm & Hee & Hv); fold D; [lia | lia |].
  fold D in Hee. exists m, e. split; [exact Hr|]. split; [exact Hm|]. split; [lia|].
  assert (HQ : dyadic (Zpos qp) (e1 - e2 - 53) * dyadic (Zpos m2) e2 <= dyadic (Zpos m1) e1).
  { rewrite <- dyadic_mul. unfold dyadic.
    assert (Epow : 2 ^ e1 == inject_Z 9007199254740992 * 2 ^ (e1 - e2 - 53 + e2)).
    { change (inject_Z 9007199254740992) with (2 ^ 53). rewrite <- pow2_add.
      replace (53 + (e1 - e2 - 53 + e2))%Z with e1 by lia. reflexivity. }
    rewrite Epow.
    change (2 ^ 53)%Z with 9007199254740992%Z in Hqm.
    rewrite Zle_Qle, !inject_Z_mult in Hqm.
    pose proof (pow2_pos (e1 - e2 - 53 + e2)).
    set (P := 2 ^ (e1 - e2 - 53 + e2)) in *.
    rewrite inject_Z_mult.
    set (A := inject_Z (Zpos qp)) in *. set (B := inject_Z (Zpos m2)) in *.
    set (C := inject_Z (Zpos m1)) in *. set (K := inject_Z 9007199254740992) in *.
    nra. }
  pose proof (dyadic_pos m2 e2) as P2.
  set (T := dyadic (Zpos m) e) in *. set (Y := dyadic (Zpos m2) e2) in *.
  set (X := dyadic (Zpos m1) e1) in *. set (Qv := dyadic (Zpos qp) (e1 - e2 - 53)) in *.
  change (1 # 2 ^ 52) with (1 # 4503599627370496) in *.
  nra.
Qed.

Lemma dyadic_shl p k : dyadic (Zpos (shl p k)) (- Z.of_nat k) == inject_Z (Zpos p).
Proof.
  unfold dyadic. rewrite Zpos_shl, inject_Z_mult, pow2_inject by lia.
  rewrite <- Qmult_assoc, <- pow2_add.
  replace (Z.of_nat k + - Z.of_nat k)%Z with 0%Z by lia.
  change (2 ^ 0) with 1. ring.
Qed.

Lemma dyadic_shl_exp p k e : dyadic (Zpos (shl p k)) (e - Z.of_nat k) == dyadic (Zpos p) e.
Proof.
  unfold dyadic. rewrite Zpos_shl, inject_Z_mult, pow2_inject by lia.
  rewrite <- Qmult_assoc, <- pow2_add.
  replace (Z.of_nat k + (e - Z.of_nat k))%Z with e by lia. reflexivity.
Qed.

(** The difference of two positive normal numbers, the larger one first. *)
Lemma SFsub_value m1 e1 m2 e2 :
  (2 ^ 52 <= Zpos m1 < 2 ^ 53)%Z -> (2 ^ 52 <= Zpos m2 < 2 ^ 53)%Z ->
  (-400 <= e2 <= e1)%Z -> (e1 <= 400)%Z ->
  dyadic (Zpos m2) e2 < dyadic (Zpos m1) e1 ->
  exists m e,
    SFsub prec emax (S754_finite false m1 e1) (S754_finite false m2 e2)
      = S754_finite false m e /\
    (2 ^ 52 <= Zpos m < 2 ^ 53)%Z /\
    dyadic (Zpos m) e <= (dyadic (Zpos m1) e1 - dyadic (Zpos m2) e2) * (1 + (1 # 2 ^ 52)).
Proof.
  intros H1 H2 He He1 Hlt. cbn [SFsub]. cbv zeta.
  rewrite Z.min_r by lia. rewrite !shl_align_spec, Z.ltb_irrefl.
  set (k := Z.to_nat (e1 - e2)).
  assert (Ea : fst (if (e2 <? e1)%Z then (shl m1 k, e2) else (m1, e1)) = shl m1 k).
  { destruct (Z.ltb_spec e2 e1) as [H|H]; [reflexivity|].
    replace k with 0%nat by (unfold k; lia). reflexivity. }
  rewrite Ea. cbn [fst cond_Zopp].
  assert (E1 : dyadic (Zpos m1) e1 == dyadic (Zpos (shl m1 k)) e2).
  { rewrite <- (dyadic_shl_exp m1 k e1). replace (e1 - Z.of_nat k)%Z with e2 by (unfold k; lia).
    reflexivity. }
  set (z := (Zpos (shl m1 k) - Zpos m2)%Z).
  assert (Ez : dyadic z e2 == dyadic (Zpos m1) e1 - dyadic (Zpos m2) e2).
  { rewrite E1. unfold dyadic, z. unfold Z.sub. rewrite inject_Z_plus, inject_Z_opp. ring. }
  assert (Hz : (0 < z)%Z).
  { rewrite E1 in Hlt. unfold dyadic in Hlt. pose proof (pow2_pos e2) as HP.
    rewrite Zlt_Qlt. unfold z, Z.sub. rewrite inject_Z_plus, inject_Z_opp.
    set (A := inject_Z (Zpos (shl m1 k))) in *. set (B := inject_Z (Zpos m2)) in *.
    set (P := 2 ^ e2) in *. change (inject_Z 0) with 0. nra. }
  assert (Hzhi : (z < 2 ^ (53 + Z.of_nat k))%Z).
  { unfold z. rewrite Zpos_shl, Z.pow_add_r by lia.
    assert (0 < 2 ^ Z.of_nat k)%Z by (apply Z.pow_pos_nonneg; lia). nia. }
  destruct z as [|zp|zp] eqn:Eqz; try lia. cbn [binary_normalize].
  unfold binary_round.
  pose proof (digits2_bound zp) as [Dlo Dhi].
  set (D := Zpos (digits2_pos zp)) in *.
  assert (HD : (1 <= D <= 53 + Z.of_nat k)%Z).
  { split; [unfold D; lia|].
    destruct (Z_lt_le_dec (53 + Z.of_nat k) D) as [H|H]; [exfalso|exact H].
    assert (2 ^ (53 + Z.of_nat k) <= 2 ^ (D - 1))%Z by (apply Z.pow_le_mono_r; lia).
    lia. }
  assert (Hk : (Z.of_nat k <= 800)%Z) by (unfold k; lia).
  rewrite fexp_53 by lia. rewrite shl_align_spec.
  pose proof (dyadic_pos zp e2) as Hpos.
  destruct (Z.ltb_spec (D + e2 - 53) e2) as [Hs|Hs].
  - (* fewer than 53 digits: the difference is exact *)
    set (j := Z.to_nat (e2 - (D + e2 - 53))).
    assert (Dj : Zpos (digits2_pos (shl zp j)) = 53%Z).
    { rewrite digits2_shl. fold D. unfold j. lia. }
    rewrite binary_round_aux_canonical by (try exact Dj; lia).
    exists (shl zp j), (D + e2 - 53)%Z. split; [reflexivity|].
    split.
    { pose proof (digits2_bound (shl zp j)) as Hb. rewrite Dj in Hb. exact Hb. }
    rewrite <- Ez.
    replace (D + e2 - 53)%Z with (e2 - Z.of_nat j)%Z by (unfold j; lia).
    rewrite dyadic_shl_exp.
    set (X := dyadic (Zpos zp) e2) in *. change (1 # 2 ^ 52) with (1 # 4503599627370496). nra.
  - destruct (binary_round_aux_value zp e2 loc_Exact)
      as (m & e & Hr & Hm & _ & Hv); fold D; [lia | lia |].
    exists m, e. split; [exact Hr|]. split; [exact Hm|].
    rewrite <- Ez. exact Hv.
Qed.

(** *** The default curve stays between 0 and 1 *)

Lemma canonical_spec p :
  (Zpos p < 2 ^ 53)%Z ->
  exists m e, canonical p = S754_finite false m e /\
              (2 ^ 52 <= Zpos m < 2 ^ 53)%Z /\ (-52 <= e <= 0)%Z /\
              dyadic (Zpos m) e == inject_Z (Zpos p).
Proof.
  intros Hp. pose proof (digits2_le_53 p Hp) as Hd.
  unfold canonical. set (D := Zpos (digits2_pos p)) in *.
  assert (Hd1 : (1 <= D)%Z) by (unfold D; lia).
  eexists _, _. split; [reflexivity|].
  assert (Dm : Zpos (digits2_pos (shl p (Z.to_nat (53 - D)))) = 53%Z).
  { rewrite digits2_shl. fold D. lia. }
  split.
  { pose proof (digits2_bound (shl p (Z.to_nat (53 - D)))) as Hb.
    rewrite Dm in Hb. exact Hb. }
  split; [lia|].
  replace (D - 53)%Z with (- Z.of_nat (Z.to_nat (53 - D)))%Z by lia.
  apply dyadic_shl.
Qed.

(** A normal number below 1 has an exponent below -52. *)
Lemma dyadic_below_1 m e :
  (2 ^ 52 <= Zpos m)%Z -> dyadic (Zpos m) e < 1 -> (e <= -53)%Z.
Proof.
  intros Hm H. destruct (Z_le_gt_dec e (-53)) as [|He]; [assumption|exfalso].
  assert (Hp : 2 ^ (-52) <= 2 ^ e) by (apply Qpower_le_compat_l; [lia | discriminate]).
  unfold dyadic in H. rewrite Zle_Qle in Hm.
  change (inject_Z (2 ^ 52)) with 4503599627370496 in Hm.
  change (2 ^ (-52)) with (1 # 4503599627370496) in Hp.
  set (A := inject_Z (Zpos m)) in *. set (P := 2 ^ e) in *. nra.
Qed.

(** Every default lightness is a number between 0 and 1. *)
Lemma defaultLightness_unit i steps :
  (2 <= steps)%nat -> (Z.of_nat steps < 2 ^ 53)%Z -> (i < steps)%nat ->
  inUnit (defaultLightness i steps) = true.
Proof.
  intros Hs Hb Hi. destruct i as [|i'].
  { rewrite defaultLightness_first by assumption. vm_compute. reflexivity. }
  set (i := S i') in *.
  assert (Pi : Zpos (Pos.of_nat i) = Z.of_nat i)
    by (unfold i; rewrite <- Pos.of_nat_succ; lia).
  assert (Pd : Zpos (Pos.of_nat (steps - 1)) = Z.of_nat (steps - 1)).
  { destruct steps as [|[|n]]; [lia | lia |].
    replace (S (S n) - 1)%nat with (S n) by lia. rewrite <- Pos.of_nat_succ. lia. }
  destruct (canonical_spec (Pos.of_nat i)) as (m1 & e1 & C1 & M1 & X1 & V1); [lia|].
  destruct (canonical_spec (Pos.of_nat (steps - 1))) as (m2 & e2 & C2 & M2 & X2 & V2);
    [lia|].
  rewrite Pi in V1. rewrite Pd in V2.
  assert (Hid : inject_Z (Z.of_nat i) <= inject_Z (Z.of_nat (steps - 1)))
    by (rewrite <- Zle_Qle; lia).
  assert (Hi0 : 0 < inject_Z (Z.of_nat i))
    by (change 0 with (inject_Z 0); rewrite <- Zlt_Qlt; lia).
  (* t = i / (steps - 1) *)
  destruct (SFdiv_value m1 e1 m2 e2 M1 M2 ltac:(lia))
    as (mt & et & St & Mt & Xt & Vt).
  (* t * 0.9 *)
  destruct (SFmul_value mt et 8106479329266893 (-53) Mt ltac:(split; reflexivity || discriminate) ltac:(lia))
    as (mu & eu & Su & Mu & Xu & Vu).
  assert (V9 : dyadic 8106479329266893 (-53) == 8106479329266893 # 9007199254740992)
    by reflexivity.
  assert (V97 : dyadic 8736983277098762 (-53) == 8736983277098762 # 9007199254740992)
    by reflexivity.
  pose proof (dyadic_pos mt et) as Tpos. pose proof (dyadic_pos mu eu) as Upos.
  assert (HT : dyadic (Zpos mt) et <= 1 + (1 # 2 ^ 52)).
  { rewrite V1, V2 in Vt.
    set (T := dyadic (Zpos mt) et) in *. set (a := inject_Z (Z.of_nat i)) in *.
    set (b := inject_Z (Z.of_nat (steps - 1))) in *.
    change (1 # 2 ^ 52) with (1 # 4503599627370496) in *. nra. }
  assert (HU : dyadic (Zpos mu) eu < 91 # 100).
  { rewrite V9 in Vu.
    set (T := dyadic (Zpos mt) et) in *. set (U := dyadic (Zpos mu) eu) in *.
    change (1 # 2 ^ 52) with (1 # 4503599627370496) in *. nra. }
  assert (Eu : (eu <= -53)%Z) by (apply (dyadic_below_1 mu); [lia | lra]).
  (* 0.97 - t * 0.9 *)
  destruct (SFsub_value 8736983277098762 (-53) mu eu
              ltac:(split; reflexivity || discriminate) Mu ltac:(lia) ltac:(lia))
    as (mx & ex & Sx & Mx & Vx).
  { rewrite V97. lra. }
  assert (HX : dyadic (Zpos mx) ex < 1).
  { rewrite V97 in Vx.
    set (U := dyadic (Zpos mu) eu) in *. set (X := dyadic (Zpos mx) ex) in *.
    change (1 # 2 ^ 52) with (1 # 4503599627370496) in *. nra. }
  assert (Ex : (ex <= -53)%Z) by (apply (dyadic_below_1 mx); [lia | exact HX]).
  assert (R : Prim2SF (defaultLightness i steps) = S754_finite false mx ex).
  { unfold defaultLightness.
    rewrite FloatAxioms.sub_spec, FloatAxioms.mul_spec, FloatAxioms.div_spec.
    rewrite of_nat_pred by assumption.
    rewrite (of_nat_spec i), (of_nat_spec (steps - 1)) by lia.
    rewrite C1, C2.
    change (Prim2SF 0.9) with (S754_finite false 8106479329266893 (-53)).
    change (Prim2SF 0.97) with (S754_finite false 8736983277098762 (-53)).
    unfold SF64sub, SF64mul, SF64div. rewrite St, Su, Sx. reflexivity. }
  unfold inUnit. rewrite !FloatAxioms.leb_spec, R.
  change (Prim2SF 0) with (S754_zero false).
  change (Prim2SF 1) with (S754_finite false 4503599627370496 (-52)).
  unfold SFleb, SFcompare.
  replace (ex ?= -52)%Z with Lt by (symmetry; apply Z.compare_lt_iff; lia).
  reflexivity.
Qed.

(** *** Numbers between 0 and 1 *)

(** A mantissa has at most 53 digits. *)
Lemma mantissa_bound x s m e :
  Prim2SF x = S754_finite s m e -> (Zpos m < 2 ^ 53)%Z.
Proof.
  intros E. pose proof (Prim2SF_valid x) as V. rewrite E in V.
  unfold valid_binary, bounded, canonical_mantissa in V.
  apply andb_prop in V. destruct V as [V _]. apply Z.eqb_eq in V.
  unfold fexp, emin, prec, emax in V.
  pose proof (digits2_bound m) as [_ Hhi].
  assert (Hd : (Zpos (digits2_pos m) <= 53)%Z) by lia.
  assert (2 ^ Zpos (digits2_pos m) <= 2 ^ 53)%Z by (apply Z.pow_le_mono_r; lia).
  lia.
Qed.

(** A number between 0 and 1 is a zero, or [m * 2^e] with [m <= 2^-e]. *)
Lemma inUnit_cases x :
  inUnit x = true ->
  (exists s, Prim2SF x = S754_zero s) \/
  (exists m e, Prim2SF x = S754_finite false m e /\ (e < 0)%Z /\
               (Zpos m <= 2 ^ (- e))%Z).
Proof.
  unfold inUnit. rewrite !FloatAxioms.leb_spec.
  change (Prim2SF 0) with (S754_zero false).
  change (Prim2SF 1) with (S754_finite false 4503599627370496 (-52)).
  destruct (Prim2SF x) as [s|s| |s m e] eqn:E.
  - intros _. left. now exists s.
  - destruct s; intros H; discriminate H.
  - intros H; discriminate H.
  - destruct s; [intros H; discriminate H|].
    unfold SFleb at 1. cbn [SFcompare andb]. unfold SFleb, SFcompare.
    intros H. right. exists m, e. split; [reflexivity|].
    pose proof (mantissa_bound x _ _ _ E) as Hm.
    destruct (Z.compare_spec e (-52)) as [He|He|He].
    + subst e. split; [lia|]. change (2 ^ (- (-52)))%Z with (Zpos 4503599627370496).
      apply Pos2Z.pos_le_pos. unfold Pos.le, Pos.compare.
      intros Hc. rewrite Hc in H. discriminate H.
    + split; [lia|].
      assert (2 ^ 53 <= 2 ^ (- e))%Z by (apply Z.pow_le_mono_r; lia). lia.
    + discriminate H.
Qed.

Lemma inUnit_value x : inUnit x = true -> 0 <= value x <= 1.
Proof.
  intros H. destruct (inUnit_cases x H) as [(s & E) | (m & e & E & He & Hm)];
    unfold value; rewrite E.
  - split; discriminate.
  - replace (0 <=? e)%Z with false by (symmetry; apply Z.leb_gt; lia).
    unfold Qle. cbn [Qnum Qden].
    rewrite Pos2Z.inj_pow, Z2Pos.id by lia. lia.
Qed.

(** *** [toFixed(3)] followed by [parseFloat] *)

(** Reading [n / 1000] back loses at most [2^-54], for each of the 1001 whole
    numbers [n] from 0 to 1000. *)
Lemma parseThousandths_error n :
  (0 <= n <= 1000)%Z ->
  Qabs (value (parseThousandths n) - inject_Z n * (1 # 1000)) <= 1 # 2 ^ 54.
Proof.
  intros Hn.
  assert (T : forallb (fun k =>
                Qle_bool (Qabs (value (parseThousandths (Z.of_nat k))
                                - inject_Z (Z.of_nat k) * (1 # 1000)))
                         (1 # 2 ^ 54))
              (seq 0 1001) = true) by (vm_compute; reflexivity).
  rewrite forallb_forall in T.
  specialize (T (Z.to_nat n)). rewrite Z2Nat.id in T by lia.
  apply Qle_bool_iff, T, in_seq. lia.
Qed.

(** The stored lightness is within [0.0005 + 2^-54] of the one it rounds. *)
Lemma roundTo3_error x :
  inUnit x = true ->
  Qabs (value (roundTo3 x) - value x) <= (1 # 2000) + (1 # 2 ^ 54).
Proof.
  intros H. pose proof (inUnit_value x H) as Hv.
  destruct (inUnit_cases x H) as [(s & E) | (m & e & E & _)].
  - assert (R : roundTo3 x = 0%float) by (unfold roundTo3; now rewrite E).
    rewrite R. unfold value at 2. rewrite E. discriminate.
  - unfold roundTo3. rewrite E. cbv zeta.
    assert (Ha : Qabs (value x) == value x) by (apply Qabs_pos; tauto).
    set (a := Qabs (value x)) in *.
    assert (Hbig : Qle_bool (inject_Z (2 ^ 43)) a = false).
    { destruct (Qle_bool (inject_Z (2 ^ 43)) a) eqn:B; [|reflexivity].
      apply Qle_bool_iff in B. exfalso.
      assert (1 < inject_Z (2 ^ 43)) by reflexivity. lra. }
    rewrite Hbig.
    set (n := Qfloor (a * 1000 + (1 # 2))).
    assert (Hn : (0 <= n <= 1000)%Z).
    { split.
      - change 0%Z with (Qfloor 0). apply Qfloor_resp_le. lra.
      - change 1000%Z with (Qfloor (1000 + (1 # 2))). apply Qfloor_resp_le. lra. }
    pose proof (parseThousandths_error n Hn) as Hp.
    pose proof (round3_error a) as Hr. unfold round3 in Hr. fold n in Hr.
    apply Qabs_Qle_condition in Hp. apply Qabs_Qle_condition in Hr.
    apply Qabs_Qle_condition.
    set (v := value (parseThousandths n)) in *.
    set (z := inject_Z n) in *.
    change (1 # 2 ^ 54) with (1 # 18014398509481984) in *.
    split; lra.
Qed.

(** *** The binary search *)

Section Palette.

(** culori's [wcagContrast(color, referenceColor)] *)
Variable wcagContrast : Oklch -> string -> float.
(** Number to string, as a template literal does it *)
Variable numToString : float -> string.

(** The search returns [bestL] or one of its midpoints. *)
Lemma searchLoop_inUnit c h target ref fuel :
  forall min max bestL minDiff L,
  probesInUnit fuel min max = true ->
  (forall L', bestL = Some L' -> inUnit L' = true) ->
  searchLoop wcagContrast c h target ref fuel min max bestL minDiff = Some L ->
  inUnit L = true.
Proof.
  induction fuel as [|fuel IH]; intros min max bestL minDiff L Hp Hb.
  - cbn [searchLoop]. intros ->. now apply Hb.
  - cbn [probesInUnit] in Hp. cbv zeta in Hp.
    apply andb_prop in Hp. destruct Hp as [Hp Hhi].
    apply andb_prop in Hp. destruct Hp as [Hmid Hlo].
    cbn [searchLoop]. cbv zeta.
    set (mid := ((min + max) / 2)%float) in *.
    set (cc := wcagContrast _ ref).
    assert (Hb' : forall (b : bool) L', (if b then Some mid else bestL) = Some L' ->
                               inUnit L' = true).
    { intros [|] L' HL'; [injection HL' as <-; exact Hmid | now apply Hb]. }
    destruct (abs (cc - target) <? minDiff)%float eqn:Hd;
      (destruct (abs (cc - target) <? 0.05)%float;
         [intros HL; injection HL as <-; exact Hmid|]);
      (destruct (cc <? target)%float;
         [apply (IH _ _ _ _ _ Hlo) | apply (IH _ _ _ _ _ Hhi)]);
      first [exact (Hb' true) | exact (Hb' false)].
Qed.

(** Each of the [2^20 - 1] midpoints that 20 iterations can reach from 0 and 1
    is between 0 and 1, and so is the lightness returned. *)
Lemma adjustLightnessForContrast_inUnit c h target ref L :
  adjustLightnessForContrast wcagContrast c h target ref = Some L ->
  inUnit L = true.
Proof.
  apply searchLoop_inUnit.
  - vm_compute. reflexivity.
  - intros L' HL'. discriminate HL'.
Qed.


(** *** The loop of generatePalette *)

Lemma b64_paletteLoop_spec id c h steps targets fuel i palette :
  paletteLoop wcagContrast numToString id c h steps targets fuel i palette =
  palette ++ List.map (makeStep wcagContrast numToString id c h steps targets)
                      (seq i fuel).
Proof.
  revert i palette.
  induction fuel as [|fuel IH]; intros i palette; simpl.
  - now rewrite app_nil_r.
  - rewrite IH, <- app_assoc. reflexivity.
Qed.

Lemma b64_generatePalette_nth id l c h steps targets i :
  (i < steps)%nat ->
  nth_error (generatePalette wcagContrast numToString id l c h steps targets) i =
  Some (makeStep wcagContrast numToString id c h steps targets i).
Proof.
  intros Hi. unfold generatePalette. rewrite b64_paletteLoop_spec.
  cbn [app]. rewrite nth_error_map, nth_error_seq.
  destruct (Nat.ltb_spec i steps); [reflexivity | lia].
Qed.

Lemma b64_makeStep_lightness id c h steps targets i :
  let cl := chooseLightness wcagContrast c h steps targets i in
  let s := makeStep wcagContrast numToString id c h steps targets i in
  ColorStep.l s = roundTo3 (fst cl) /\
  ColorStep.css s =
    String.concat "" ["oklch("; numToString (fst cl); " "; numToString c; " ";
                      numToString h; ")"]%string /\
  ColorStep.isContrastForced s = snd cl.
Proof. unfold makeStep. simpl. now destruct chooseLightness. Qed.

Lemma b64_chooseLightness_default c h steps targets i :
  truthyTarget (lookupTarget targets i) = None ->
  chooseLightness wcagContrast c h steps targets i = (defaultLightness i steps, false).
Proof. intros H. unfold chooseLightness. now rewrite H. Qed.

Lemma b64_chooseLightness_cases c h steps targets i :
  let cl := chooseLightness wcagContrast c h steps targets i in
  (snd cl = true /\
   exists t, adjustLightnessForContrast wcagContrast c h t "#ffffff" = Some (fst cl))
  \/ (snd cl = false /\ fst cl = defaultLightness i steps).
Proof.
  unfold chooseLightness.
  destruct (truthyTarget (lookupTarget targets i)) as [t|]; [|now right].
  destruct (adjustLightnessForContrast wcagContrast c h t "#ffffff") as [L|] eqn:HL;
    [|now right].
  left. split; [reflexivity|]. exists t. exact HL.
Qed.

(** ** The claims on the values of the lightness *)

(** C4, as amended: at an index [i] without a truthy contrast target, the
    step is rendered from the binary64 value [x] of
    [0.97 - (i / (steps - 1)) * 0.9], each operation rounded, and stores
    [parseFloat(x.toFixed(3))].  For at least two steps (and fewer than
    [2^53]), [x] is [0.97] at index 0, stored as [0.97]; at the last index it
    is [0.97 - 0.9 = 0.06999999999999995], which is not the number [0.07],
    and it is stored as [0.07].  For three steps without targets the
    lightnesses rendered are [0.97], [0.52] and [0.06999999999999995], and
    the ones stored [0.97], [0.52] and [0.07]. *)
Theorem default_lightness_binary64 id l c h steps targets i :
  (i < steps)%nat ->
  truthyTarget (lookupTarget targets i) = None ->
  (exists step x,
     x = (0.97 - (of_nat i / (of_nat steps - 1)) * 0.9)%float /\
     nth_error (generatePalette wcagContrast numToString id l c h steps targets) i
       = Some step /\
     ColorStep.css step =
       String.concat "" ["oklch("; numToString x; " "; numToString c; " ";
                         numToString h; ")"]%string /\
     ColorStep.l step = roundTo3 x /\
     ((2 <= steps)%nat -> (Z.of_nat steps < 2 ^ 53)%Z ->
      (i = 0%nat -> x = 0.97%float /\ ColorStep.l step = 0.97%float) /\
      (i = (steps - 1)%nat ->
         x = 0.06999999999999995%float /\ (x =? 0.07)%float = false /\
         ColorStep.l step = 0.07%float))) /\
  List.map (fun step => (ColorStep.l step, ColorStep.css step))
           (generatePalette wcagContrast numToString id l c h 3 ∅) =
  [(0.97%float,
    String.concat "" ["oklch("; numToString 0.97%float; " "; numToString c; " ";
                      numToString h; ")"]%string);
   (0.52%float,
    String.concat "" ["oklch("; numToString 0.52%float; " "; numToString c; " ";
                      numToString h; ")"]%string);
   (0.07%float,
    String.concat "" ["oklch("; numToString 0.06999999999999995%float; " ";
                      numToString c; " "; numToString h; ")"]%string)].
Proof.
  intros Hi Hnone. split; [|vm_compute; reflexivity].
  exists (makeStep wcagContrast numToString id c h steps targets i),
         (defaultLightness i steps).
  destruct (b64_makeStep_lightness id c h steps targets i) as (Hl & Hcss & _).
  rewrite b64_chooseLightness_default in Hl, Hcss by exact Hnone.
  cbn [fst] in Hl, Hcss.
  split; [reflexivity|]. split; [now apply b64_generatePalette_nth|].
  split; [exact Hcss|]. split; [exact Hl|].
  intros Hs Hb. split; intros ->.
  - rewrite Hl, defaultLightness_first by assumption.
    split; [reflexivity | vm_compute; reflexivity].
  - rewrite Hl, defaultLightness_last by assumption.
    split; [reflexivity|]. split; vm_compute; reflexivity.
Qed.

(** C10, as amended: every step stores [l = parseFloat(x.toFixed(3))],
    where [x] is the lightness chosen for the step, and its [css] string is
    rendered from [x] itself.  On every step of a palette of at least two
    steps (fewer than [2^53]), and on every contrast-forced step, [x] is a
    number between 0 and 1, and the exact values of [l] and [x] differ by at
    most [0.0005 + 2^-54], the second term being the rounding of the
    three-decimal value to binary64.  The two do differ: the nine steps of a
    palette without targets are rendered from [0.97], [0.8574999999999999],
    ..., [0.06999999999999995] and store [0.97], [0.857], ..., [0.07]. *)
Theorem stored_vs_rendered_binary64 id l c h steps targets i :
  (i < steps)%nat ->
  (exists step x,
     x = fst (chooseLightness wcagContrast c h steps targets i) /\
     nth_error (generatePalette wcagContrast numToString id l c h steps targets) i
       = Some step /\
     ColorStep.css step =
       String.concat "" ["oklch("; numToString x; " "; numToString c; " ";
                         numToString h; ")"]%string /\
     ColorStep.l step = roundTo3 x /\
     (ColorStep.isContrastForced step = true \/
      ((2 <= steps)%nat /\ (Z.of_nat steps < 2 ^ 53)%Z) ->
      inUnit x = true /\
      Qabs (value (ColorStep.l step) - value x) <= (1 # 2000) + (1 # 2 ^ 54))) /\
  List.map (fun i => fst (chooseLightness wcagContrast c h 9 ∅ i)) (seq 0 9) =
  [0.97; 0.8574999999999999; 0.745; 0.6325; 0.52; 0.4075; 0.29499999999999993;
   0.1825; 0.06999999999999995]%float /\
  List.map ColorStep.l (generatePalette wcagContrast numToString id l c h 9 ∅) =
  [0.97; 0.857; 0.745; 0.632; 0.52; 0.407; 0.295; 0.182; 0.07]%float.
Proof.
  intros Hi. split; [|split; vm_compute; reflexivity].
  exists (makeStep wcagContrast numToString id c h steps targets i),
         (fst (chooseLightness wcagContrast c h steps targets i)).
  destruct (b64_makeStep_lightness id c h steps targets i) as (Hl & Hcss & Hf).
  cbv zeta in Hl, Hcss, Hf.
  split; [reflexivity|]. split; [now apply b64_generatePalette_nth|].
  split; [exact Hcss|]. split; [exact Hl|].
  intros Hc.
  assert (Hu : inUnit (fst (chooseLightness wcagContrast c h steps targets i)) = true).
  { rewrite Hf in Hc.
    destruct (b64_chooseLightness_cases c h steps targets i) as [(_ & t & Ht) | (Hd & E)].
    - exact (adjustLightnessForContrast_inUnit _ _ _ _ _ Ht).
    - rewrite Hd in Hc. rewrite E.
      destruct Hc as [H | (Hs & Hb)]; [discriminate H|].
      now apply defaultLightness_unit. }
  split; [exact Hu|]. rewrite Hl. now apply roundTo3_error.
Qed.

End Palette.
End Binary64Facts.


(** ** The theorems on concrete inputs *)

(** Three steps, a target of 4.5 at index 1: that step is contrast-forced. *)
Lemma generatePalette_forced_iff_truthy_witness :
  let targets : gmap nat (option num) := {[ 1%nat := Some (Fin 4.5) ]} in
  let palette := generatePalette linearContrast fractionToString "primary"
                   (Fin 0.6) (Fin 0.15) (Fin 260) 3 targets in
  let step := makeStep linearContrast fractionToString "primary"
                (Fin 0.15) (Fin 260) 3 targets 1 in
  nth_error palette 1 = Some step /\
  ColorStep.isContrastForced step = true /\
  ColorStep.l step = fin 0.824.
Proof.
  cbv zeta.
  assert (H : nth_error
                (generatePalette linearContrast fractionToString "primary"
                   (Fin 0.6) (Fin 0.15) (Fin 260) 3 {[ 1%nat := Some (Fin 4.5) ]}) 1
              = Some (makeStep linearContrast fractionToString "primary"
                        (Fin 0.15) (Fin 260) 3 {[ 1%nat := Some (Fin 4.5) ]} 1))
    by (vm_compute; reflexivity).
  split; [exact H|].
  destruct (generatePalette_forced_iff_truthy linearContrast fractionToString
              _ _ _ _ _ _ _ _ H) as (Hiff & Hsolved & _ & _).
  split.
  - apply Hiff. exists (Fin 4.5).
    split; [vm_compute; reflexivity|]. split; [reflexivity|].
    vm_compute. discriminate.
  - destruct (Hsolved (Fin 4.5) (Fin (211 # 256))) as (_ & Hl);
      [vm_compute; reflexivity | reflexivity | vm_compute; reflexivity |].
    rewrite Hl. vm_compute. reflexivity.
Defined.

(** A target of [0] is a non-null entry, and the solver would return a
    lightness for it; the step takes the default lightness and is not
    contrast-forced, whatever the contrast function. *)
Lemma zero_target_not_forced :
  let targets : gmap nat (option num) := {[ 0%nat := Some (Fin 0) ]} in
  (lookupTarget targets 0 = TNum (Fin 0) /\
   adjustLightnessForContrast linearContrast (Fin 0.15) (Fin 260) (Fin 0) "#ffffff"
     = Some (Fin (1048575 # 1048576)) /\
   List.map (fun step => (ColorStep.l step, ColorStep.isContrastForced step))
     (generatePalette linearContrast fractionToString "primary"
        (Fin 0.6) (Fin 0.15) (Fin 260) 3 targets)
   = [(fin 0.97, false); (fin 0.52, false); (fin 0.07, false)]) /\
  (forall wcagContrast numToString,
     option_map ColorStep.isContrastForced
       (nth_error (generatePalette wcagContrast numToString "primary"
                     (Fin 0.6) (Fin 0.15) (Fin 260) 3 targets) 0)
     = Some false).
Proof.
  cbv zeta. split.
  - split; [vm_compute; reflexivity|].
    split; vm_compute; reflexivity.
  - intros wcagContrast numToString. vm_compute. reflexivity.
Qed.

(** The linear contrast profile is finite on finite lightness, and a target
    of 4.5 is solved by a lightness between 0 and 1. *)
Lemma adjustLightnessForContrast_finite_witness :
  (forall q, 0 <= q <= 1 ->
     exists v, linearContrast {| ok_l := Fin q; ok_c := Fin 0.15; ok_h := Fin 260 |}
                 "#ffffff" = Fin v) /\
  exists L, adjustLightnessForContrast linearContrast (Fin 0.15) (Fin 260)
              (Fin 4.5) "#ffffff" = Some (Fin L) /\ 0 <= L <= 1.
Proof.
  assert (H : forall q, 0 <= q <= 1 ->
     exists v, linearContrast {| ok_l := Fin q; ok_c := Fin 0.15; ok_h := Fin 260 |}
                 "#ffffff" = Fin v)
    by (intros q _; eexists; reflexivity).
  split; [exact H|].
  exact (adjustLightnessForContrast_finite linearContrast (Fin 0.15) (Fin 260)
           4.5 "#ffffff" H).
Defined.

(** A target of [Infinity]: the solver returns [null], for the linear
    profile and for every other contrast function. *)
Lemma infinite_target_returns_null :
  adjustLightnessForContrast linearContrast (Fin 0.15) (Fin 260) PInf "#ffffff"
    = None /\
  (forall wcagContrast c h referenceColor,
     adjustLightnessForContrast wcagContrast c h PInf referenceColor = None).
Proof.
  split; [vm_compute; reflexivity|].
  intros wcagContrast c h referenceColor. apply searchLoop_PInf.
Qed.

(** Three steps without targets, first and last index. *)
Lemma generatePalette_default_decreasing_witness :
  (2 <= 3)%nat /\ (0 < 2 < 3)%nat /\
  truthyTarget (lookupTarget ∅ 0) = None /\
  truthyTarget (lookupTarget ∅ 2) = None /\
  exists si sj qi qj li lj,
    nth_error (generatePalette linearContrast fractionToString "primary"
                 (Fin 0.6) (Fin 0.15) (Fin 260) 3 ∅) 0 = Some si /\
    nth_error (generatePalette linearContrast fractionToString "primary"
                 (Fin 0.6) (Fin 0.15) (Fin 260) 3 ∅) 2 = Some sj /\
    ColorStep.css si = oklch fractionToString (Fin qi) (Fin 0.15) (Fin 260) /\
    ColorStep.css sj = oklch fractionToString (Fin qj) (Fin 0.15) (Fin 260) /\
    qj < qi /\
    ColorStep.l si = Fin li /\ ColorStep.l sj = Fin lj /\
    lj <= li /\
    ((3 <= 901)%nat -> lj < li).
Proof.
  split; [lia|]. split; [lia|]. split; [reflexivity|]. split; [reflexivity|].
  apply (generatePalette_default_decreasing linearContrast fractionToString
           "primary" (Fin 0.6) (Fin 0.15) (Fin 260) 3 ∅ 0 2);
    [lia | lia | reflexivity | reflexivity].
Defined.

(** 2001 steps without targets: the steps at indices 0 and 1 are rendered
    from 0.97 and 0.96955 and both store [l = 0.97]. *)
Lemma stored_lightness_ties :
  let palette := generatePalette linearContrast fractionToString "primary"
                   (Fin 0.6) (Fin 0.15) (Fin 260) 2001 ∅ in
  (2 <= 2001)%nat /\ (0 < 1 < 2001)%nat /\
  truthyTarget (lookupTarget ∅ 0) = None /\
  truthyTarget (lookupTarget ∅ 1) = None /\
  option_map ColorStep.l (nth_error palette 0) = Some (fin 0.97) /\
  option_map ColorStep.l (nth_error palette 1) = Some (fin 0.97) /\
  defaultLightness 1 2001 = fin 0.96955 /\
  nltb (fin 0.97) (fin 0.97) = false.
Proof.
  cbv zeta. split; [lia|]. split; [lia|].
  split; [reflexivity|]. split; [reflexivity|].
  rewrite !generatePalette_nth by lia.
  repeat split; vm_compute; reflexivity.
Qed.

(** Three steps without targets: the divisor is 2; one step: it is 0. *)
Lemma generatePalette_divisor_witness :
  ((2 <= 3)%nat /\
   exists d q,
     nsub (of_nat 3) (Fin 1) = Fin d /\ ~ d == 0 /\
     defaultLightness 1 3 = Fin q) /\
  (truthyTarget (lookupTarget ∅ 0) = None /\
   exists step,
     generatePalette linearContrast fractionToString "primary"
       (Fin 0.6) (Fin 0.15) (Fin 260) 1 ∅ = [step] /\
     ColorStep.l step = NaN).
Proof.
  destruct (generatePalette_divisor linearContrast fractionToString
              "primary" (Fin 0.6) (Fin 0.15) (Fin 260) 3 ∅ 1) as [H2 H1].
  split.
  - split; [lia|]. apply H2. lia.
  - split; [reflexivity|].
    destruct (H1 eq_refl) as (_ & _ & step & Hp & Hl & _).
    exists step. split; [exact Hp | exact Hl].
Defined.

(** The search on the linear profile.  For the target 4.5 it stops at its
    eighth probe, 211/256, where the contrast is 289/64 = 4.515625; for the
    target 30, which no lightness reaches, it makes all 20 probes and returns
    the darkest of them. *)
Example adjustLightnessForContrast_linear :
  probes linearContrast (Fin 0.15) (Fin 260) (Fin 4.5) "#ffffff" 20 (Fin 0) (Fin 1)
    = [Fin (1 # 2); Fin (3 # 4); Fin (7 # 8); Fin (13 # 16); Fin (27 # 32);
       Fin (53 # 64); Fin (105 # 128); Fin (211 # 256)] /\
  adjustLightnessForContrast linearContrast (Fin 0.15) (Fin 260) (Fin 4.5) "#ffffff"
    = Some (Fin (211 # 256)) /\
  linearContrast {| ok_l := Fin (211 # 256); ok_c := Fin 0.15; ok_h := Fin 260 |}
    "#ffffff" = Fin (289 # 64) /\
  adjustLightnessForContrast linearContrast (Fin 0.15) (Fin 260) (Fin 30) "#ffffff"
    = Some (Fin (1 # 1048576)).
Proof. repeat split; vm_compute; reflexivity. Qed.

(** ** The further theorems on concrete inputs *)

(** The linear profile [21 - 20 q] decreases and reaches 4.5 at 0.825. *)
Lemma adjustLightnessForContrast_converges_witness :
  exists L,
    adjustLightnessForContrast linearContrast (Fin 0.15) (Fin 260) (Fin 4.5)
      "#ffffff" = Some (Fin L) /\
    0 <= L <= 1 /\
    (Qabs (Qred (21 - Qred (20 * L)) - 4.5) < 0.05 \/
     exists p,
       In (Fin p) (probes linearContrast (Fin 0.15) (Fin 260) (Fin 4.5) "#ffffff"
                     20 (Fin 0) (Fin 1)) /\
       Qabs (p - 0.825) <= 1 # 1048576 /\
       Qabs (Qred (21 - Qred (20 * L)) - 4.5)
         <= Qabs (Qred (21 - Qred (20 * p)) - 4.5)).
Proof.
  apply (adjustLightnessForContrast_converges linearContrast (Fin 0.15) (Fin 260)
           "#ffffff" (fun q => Qred (21 - Qred (20 * q))) 4.5 0.825).
  - intros q _. reflexivity.
  - intros x y _ Hxy _. rewrite !Qred_correct. lra.
  - intros x y _ Hxy _. rewrite !Qred_correct. lra.
  - split; [lra | reflexivity].
Defined.

(** Three steps; the target at index 1 is set to 4.5: index 2 is as before. *)
Lemma handleContrastChange_frame_witness :
  2%nat <> 1%nat /\
  length (generatePalette linearContrast fractionToString "primary"
            (Fin 0.6) (Fin 0.15) (Fin 260) 3 (handleContrastChange ∅ 1 (Fin 4.5)))
    = length (generatePalette linearContrast fractionToString "primary"
                (Fin 0.6) (Fin 0.15) (Fin 260) 3 ∅) /\
  nth_error (generatePalette linearContrast fractionToString "primary"
               (Fin 0.6) (Fin 0.15) (Fin 260) 3 (handleContrastChange ∅ 1 (Fin 4.5))) 2
    = nth_error (generatePalette linearContrast fractionToString "primary"
                   (Fin 0.6) (Fin 0.15) (Fin 260) 3 ∅) 2.
Proof.
  split; [lia|].
  apply (handleContrastChange_frame linearContrast fractionToString "primary"
           (Fin 0.6) (Fin 0.15) (Fin 260) 3 ∅ 1 (Fin 4.5) 2). lia.
Defined.

(** Three steps; the input at index 1 is cleared. *)
Lemma handleContrastChange_step_witness :
  (1 < 3)%nat /\
  exists step,
    nth_error (generatePalette linearContrast fractionToString "primary"
                 (Fin 0.6) (Fin 0.15) (Fin 260) 3
                 (handleContrastChange {[ 1%nat := Some (Fin 4.5) ]} 1 NaN)) 1
      = Some step /\
    ColorStep.contrastTarget step = TNull /\
    ColorStep.isContrastForced step = false.
Proof.
  split; [lia|].
  destruct (handleContrastChange_step linearContrast fractionToString "primary"
              (Fin 0.6) (Fin 0.15) (Fin 260) 3 {[ 1%nat := Some (Fin 4.5) ]} 1 NaN)
    as (step & Hn & Ht & Hfalsy & _); [lia|].
  exists step. split; [exact Hn|]. split; [exact Ht|].
  exact (proj1 (Hfalsy eq_refl)).
Defined.

(** Three steps, a target of 4.5 at index 1. *)
Lemma generatePalette_lightness_in_unit_witness :
  (2 <= 3)%nat /\
  Forall (fun step => exists q, ColorStep.l step = Fin q /\ 0 <= q <= 1)
         (generatePalette linearContrast fractionToString "primary"
            (Fin 0.6) (Fin 0.15) (Fin 260) 3 {[ 1%nat := Some (Fin 4.5) ]}).
Proof.
  split; [lia|].
  apply (generatePalette_lightness_in_unit linearContrast fractionToString). lia.
Defined.

(** The target 4.5 at index 1 of a palette of 3 steps and at index 7 of a
    palette of 18 steps of another family with the same chroma and hue. *)
Lemma forced_step_ignores_position_witness :
  let t1 : gmap nat (option num) := {[ 1%nat := Some (Fin 4.5) ]} in
  let t2 : gmap nat (option num) := {[ 7%nat := Some (Fin 4.5) ]} in
  let si := makeStep linearContrast fractionToString "primary"
              (Fin 0.15) (Fin 260) 3 t1 1 in
  let sj := makeStep linearContrast fractionToString "secondary"
              (Fin 0.15) (Fin 260) 18 t2 7 in
  ColorStep.isContrastForced si = true /\ ColorStep.isContrastForced sj = true /\
  ColorStep.l si = ColorStep.l sj /\ ColorStep.css si = ColorStep.css sj.
Proof.
  cbv zeta.
  apply (forced_step_ignores_position linearContrast fractionToString
           "primary" "secondary" (Fin 0.6) (Fin 0.7) (Fin 0.15) (Fin 260) 3 18
           {[ 1%nat := Some (Fin 4.5) ]} {[ 7%nat := Some (Fin 4.5) ]} 1 7 (Fin 4.5)).
  - apply generatePalette_nth. lia.
  - apply generatePalette_nth. lia.
  - vm_compute. reflexivity.
  - vm_compute. reflexivity.
  - reflexivity.
  - vm_compute. discriminate.
Defined.

(** The two initial families, a third one added and removed again. *)
Lemma removePalette_addPalette_witness :
  let palettes :=
    [{| ColorFamily.id := "primary"; ColorFamily.l := Fin 0.6; ColorFamily.h := Fin 260 |};
     {| ColorFamily.id := "secondary"; ColorFamily.l := Fin 0.7; ColorFamily.h := Fin 140 |}]
  in
  removePalette (addPalette palettes 42 (Fin 0.5) (Fin 0.5) (Fin 0.5))
                (String.append "color-" (natToString 42)) = palettes.
Proof.
  cbv zeta. apply removePalette_addPalette.
  repeat constructor; cbn [ColorFamily.id]; intros H; discriminate H.
Defined.

(** A map with one numeric entry; the entry at index 2 is set to [NaN]. *)
Lemma handleContrastChange_entries_witness :
  let prev : gmap nat (option num) := {[ 1%nat := Some (Fin 4.5) ]} in
  lookupTarget (handleContrastChange prev 2 NaN) 2 = TNull /\
  lookupTarget (handleContrastChange prev 2 NaN) 1 = TNum (Fin 4.5) /\
  forall j, lookupTarget (handleContrastChange prev 2 NaN) j <> TNum NaN.
Proof.
  cbv zeta.
  destruct (handleContrastChange_entries {[ 1%nat := Some (Fin 4.5) ]} 2 NaN)
    as (Hat & Hother & Hinv).
  split; [exact Hat|]. split.
  - rewrite Hother by lia. vm_compute. reflexivity.
  - apply Hinv. intros j. unfold lookupTarget.
    destruct (decide (j = 1%nat)) as [->|Hne].
    + rewrite lookup_singleton_eq. discriminate.
    + rewrite lookup_singleton_ne by congruence. discriminate.
Defined.

(** From 18 steps: one down gives 17; one up and one down give 18 again.
    From 3 steps: one down stays at 3. *)
Lemma handleStepsChange_floor_witness :
  handleStepsChange (handleStepsChange (Fin 18) (Fin 1)) (Fin (-1)) = fin 18 /\
  handleStepsChange (Fin 18) (Fin (-1)) = Fin 17 /\
  handleStepsChange (Fin 3) (Fin (-1)) = Fin 3.
Proof.
  split; [|split; reflexivity].
  apply (proj2 (handleStepsChange_floor 18 0)). discriminate.
Defined.

(** A converter that parses every string, as a grey of lightness 1/2. *)
Lemma loadPresets_ids_witness :
  let toOklch := fun _ : string =>
    Some {| cu_l := Fin (1 # 2); cu_c := Fin 0; cu_h := None |} in
  List.map ColorFamily.id (loadPresets toOklch) =
  List.map (fun k => String.append "preset-" (natToString k)) (seq 0 16).
Proof.
  cbv zeta.
  apply (proj2 (proj2 (loadPresets_ids
           (fun _ => Some {| cu_l := Fin (1 # 2); cu_c := Fin 0; cu_h := None |})))).
  intros hex _. discriminate.
Defined.

(** ** The binary64 theorems on concrete inputs *)

Section Binary64Examples.
Import Floats Binary64.

(** Truthiness, exact values and [parseFloat(x.toFixed(3))] on sample
    numbers: both zeros and [NaN] are falsy; a tie goes to the larger number
    of thousandths (0.0625 gives 0.063), while 1.0005, which is below the
    tie as a binary64 number, gives 1; a small negative number gives [-0];
    [NaN], the infinities and large numbers come back as they are. *)
Example binary64_numbers :
  List.map num_truthy [0; - 0; nan; 4.5; infinity; -0.001]%float
    = [false; false; false; true; true; true] /\
  List.map (fun x => Qred (value x)) [-0.5; 0.75; 3; 1024; - 0; nan]%float
    = [-1 # 2; 3 # 4; 3; 1024; 0; 0] /\
  List.map roundTo3
    [0.8574999999999999; 0.0625; 1.0005; 0.0005; -1.2346; -0.0004; - 0;
     nan; infinity; neg_infinity; 1e22; 9007199254740993]%float
    = [0.857; 0.063; 1; 0.001; -1.235; - 0; 0;
       nan; infinity; neg_infinity; 1e22; 9007199254740992]%float.
Proof. repeat split; vm_compute; reflexivity. Qed.

(** The search on the linear profile: for the target 4.5 it stops at its
    eighth probe, 0.82421875; for the target 30, which no lightness reaches,
    it makes all 20 probes and returns the darkest, [2^-20]; for the target
    [Infinity] it returns [null]. *)
Example binary64_search :
  adjustLightnessForContrast linearContrast 0.15 260 4.5 "#ffffff"
    = Some 0.82421875%float /\
  adjustLightnessForContrast linearContrast 0.15 260 30 "#ffffff"
    = Some 9.5367431640625e-07%float /\
  adjustLightnessForContrast linearContrast 0.15 260 infinity "#ffffff" = None.
Proof. repeat split; vm_compute; reflexivity. Qed.

(** Five steps with the targets 4.5, 0, [null] and [Infinity] at the indices
    1 to 4.  The step at index 1 is contrast-forced, rendered from 0.82421875,
    and stores 0.824; the falsy targets 0 and [null] leave the default
    lightness, and so does [Infinity], for which the solver returns [null]. *)
Example binary64_palette :
  let targets : gmap nat (option float) :=
    {[ 1%nat := Some 4.5%float; 2%nat := Some 0%float; 3%nat := None;
       4%nat := Some infinity ]} in
  let step i name l x target forced :=
    {| ColorStep.id := String.append "primary-" i;
       ColorStep.stepName := name;
       ColorStep.l := l;
       ColorStep.c := 0.15;
       ColorStep.h := 260;
       ColorStep.css := oklch dyadicToString x 0.15 260;
       ColorStep.contrastTarget := target;
       ColorStep.isContrastForced := forced |} in
  generatePalette linearContrast dyadicToString "primary" 0.6 0.15 260 5 targets
  = [step "0" "100" 0.97%float 0.97%float TUndefined false;
     step "1" "99" 0.824%float 0.82421875%float (TNum 4.5%float) true;
     step "2" "98" 0.52%float 0.52%float (TNum 0%float) false;
     step "3" "95" 0.295%float 0.29499999999999993%float TNull false;
     step "4" "90" 0.07%float 0.06999999999999995%float (TNum infinity) false]%string.
Proof. vm_compute. reflexivity. Qed.

(** With three steps and no targets, the last step is rendered from
    [0.97 - 0.9], a binary64 number below [0.07] and different from it,
    whatever the contrast function and the printing of numbers. *)
Lemma last_step_is_not_0_07 :
  (0.97 - 0.9 =? 0.07)%float = false /\
  value (0.97 - 0.9)%float < value 0.07%float /\
  forall wcagContrast numToString id l c h,
    exists step,
      nth_error (generatePalette wcagContrast numToString id l c h 3 ∅) 2
        = Some step /\
      ColorStep.css step =
        String.concat "" ["oklch("; numToString (0.97 - 0.9)%float; " ";
                          numToString c; " "; numToString h; ")"]%string.
Proof.
  split; [vm_compute; reflexivity|]. split; [vm_compute; reflexivity|].
  intros wcagContrast numToString id l c h. eexists. split; vm_compute; reflexivity.
Qed.

(** Three steps without targets, the last index: the step is rendered from
    [0.06999999999999995] and stores [0.07]. *)
Lemma default_lightness_binary64_witness :
  (2 < 3)%nat /\ truthyTarget (lookupTarget ∅ 2) = None /\
  (2 <= 3)%nat /\ (Z.of_nat 3 < 2 ^ 53)%Z /\
  exists step,
    nth_error (generatePalette linearContrast dyadicToString "primary"
                 0.6 0.15 260 3 ∅) 2 = Some step /\
    ColorStep.css step =
      String.concat "" ["oklch("; dyadicToString 0.06999999999999995; " ";
                        dyadicToString 0.15; " "; dyadicToString 260; ")"]%string /\
    ColorStep.l step = 0.07%float.
Proof.
  assert (H1 : (2 < 3)%nat) by lia.
  assert (H2 : truthyTarget (lookupTarget ∅ 2) = None) by reflexivity.
  assert (H3 : (2 <= 3)%nat) by lia.
  assert (H4 : (Z.of_nat 3 < 2 ^ 53)%Z) by reflexivity.
  split; [exact H1|]. split; [exact H2|]. split; [exact H3|]. split; [exact H4|].
  destruct (default_lightness_binary64 linearContrast dyadicToString "primary"
              0.6 0.15 260 3 ∅ 2 H1 H2)
    as ((step & x & _ & Hn & Hcss & _ & Hends) & _).
  destruct (Hends H3 H4) as (_ & Hlast).
  destruct (Hlast eq_refl) as (Hx & _ & Hl).
  exists step. rewrite Hx in Hcss.
  split; [exact Hn|]. split; [exact Hcss | exact Hl].
Defined.

(** With nine steps and no targets, the step at index 5 is rendered from
    [0.4075] and stores [0.407]: as binary64 numbers the two are more than
    0.0005 apart (by about 4.4e-19).  With one step, the lightness rendered
    and the one stored are both [NaN]. *)
Lemma stored_differs_by_more_than_0_0005 :
  (forall wcagContrast numToString id l c h,
     exists step,
       nth_error (generatePalette wcagContrast numToString id l c h 9 ∅) 5
         = Some step /\
       ColorStep.css step =
         String.concat "" ["oklch("; numToString 0.4075%float; " ";
                           numToString c; " "; numToString h; ")"]%string /\
       ColorStep.l step = 0.407%float) /\
  (1 # 2000) < value 0.4075%float - value 0.407%float /\
  (forall wcagContrast numToString id l c h,
     exists step,
       nth_error (generatePalette wcagContrast numToString id l c h 1 ∅) 0
         = Some step /\
       ColorStep.css step =
         String.concat "" ["oklch("; numToString nan; " ";
                           numToString c; " "; numToString h; ")"]%string /\
       ColorStep.l step = nan).
Proof.
  split; [|split].
  - intros. eexists. split; [|split]; vm_compute; reflexivity.
  - vm_compute. reflexivity.
  - intros. eexists. split; [|split]; vm_compute; reflexivity.
Qed.

(** Three steps, a target of 4.5 at index 1: the step is contrast-forced,
    rendered from 0.82421875, and stores 0.824, which is within the bound. *)
Lemma stored_vs_rendered_binary64_witness :
  let targets : gmap nat (option float) := {[ 1%nat := Some 4.5%float ]} in
  (1 < 3)%nat /\
  exists step,
    nth_error (generatePalette linearContrast dyadicToString "primary"
                 0.6 0.15 260 3 targets) 1 = Some step /\
    ColorStep.isContrastForced step = true /\
    ColorStep.css step =
      String.concat "" ["oklch("; dyadicToString 0.82421875; " ";
                        dyadicToString 0.15; " "; dyadicToString 260; ")"]%string /\
    ColorStep.l step = 0.824%float /\
    Qabs (value 0.824%float - value 0.82421875%float) <= (1 # 2000) + (1 # 2 ^ 54).
Proof.
  cbv zeta. assert (H1 : (1 < 3)%nat) by lia. split; [exact H1|].
  destruct (stored_vs_rendered_binary64 linearContrast dyadicToString "primary"
              0.6 0.15 260 3 {[ 1%nat := Some 4.5%float ]} 1 H1)
    as ((step & x & Hx & Hn & Hcss & Hl & Hb) & _).
  assert (Ex : x = 0.82421875%float) by (rewrite Hx; vm_compute; reflexivity).
  rewrite Ex in Hcss, Hl, Hb.
  assert (El : roundTo3 0.82421875 = 0.824%float) by (vm_compute; reflexivity).
  rewrite El in Hl.
  assert (Hf : ColorStep.isContrastForced step = true).
  { vm_compute in Hn. injection Hn as <-. reflexivity. }
  destruct (Hb (or_introl Hf)) as (_ & Hbound). rewrite Hl in Hbound.
  exists step. split; [exact Hn|]. split; [exact Hf|].
  split; [exact Hcss|]. split; [exact Hl | exact Hbound].
Defined.

End Binary64Examples.
